(** * Resilience core of the NestJS integration service

    A shallow embedding of
      - common/utils/retry.util.ts          (module [Retry])
      - common/utils/circuit-breaker.util.ts (module [Breaker])
      - common/utils/idempotency.util.ts     (module [Idempotency])
      - common/services/idempotency.service.ts and
        sqs/sqs-consumer.service.ts, sqs/sqs.service.ts (module [Consumer])

    Conventions.
      - A JavaScript [number] that counts (attempts, thresholds, milliseconds
        read from the clock) is a [Z]; a [number] that enters the arithmetic
        of the backoff calculator is an IEEE 754 binary64 [float], with the
        primitive operations of Rocq on that format.
      - [async] functions are run to completion one after the other: the
        model is sequential.
      - What a logger prints is left out; the template literal of a log line
        is evaluated all the same, and reading [.message] of [undefined]
        there throws.
      - Everything outside the process (the clock, [Math.random], the
        engine's approximation behind [Math.pow], the queue, the downstream
        PIM) is an [Env]: a family of functions of the history of external
        calls made so far.  Two readings of the clock with no external call
        between them are therefore equal. *)

From Stdlib Require Import ZArith QArith Qminmax Qpower Qfield Ascii Lia Floats.
From stdpp Require Import base option list strings gmap pretty.

Local Open Scope Z_scope.

(** ** Thrown values *)

(** What a [throw] can carry in this code base: instances of [Error] and of
    its subclasses, and the value [undefined] ([retryWithBackoff] throws its
    [lastError] variable, which is [undefined] until an attempt failed). *)
Inductive Exn : Type :=
| Error (message : string)
| SyntaxError (message : string)
| TypeError (message : string)
| CircuitBreakerOpenException (serviceName : string)
| SqsException (message operation : string) (correlationId : option string)
               (originalError : Exn)
| Undefined.

(** [(error as Error).message]; [None] stands for the [TypeError] that
    reading a property of [undefined] raises. *)
Definition message_of (e : Exn) : option string :=
  match e with
  | Error m | SyntaxError m | TypeError m => Some m
  | CircuitBreakerOpenException s => Some ("Circuit breaker is open for " +:+ s)%string
  | SqsException m _ _ _ => Some m
  | Undefined => None
  end.

Inductive Res (A : Type) : Type :=
| Ok (a : A)
| Throw (e : Exn).
Arguments Ok {A} a.
Arguments Throw {A} e.

Definition is_Ok {A} (r : Res A) : bool :=
  match r with Ok _ => true | Throw _ => false end.

(** ** Numbers

    [number_of_Z k] is the double of an integer below 2^53 in magnitude. *)
Definition number_of_Z (k : Z) : float :=
  match k with
  | Z0 => zero
  | Zpos _ => of_uint63 (Uint63.of_Z k)
  | Zneg p => (- of_uint63 (Uint63.of_Z (Zpos p)))%float
  end.

(** The integer [(-1)^s * m] of a significand. *)
Definition signed (s : bool) (m : positive) : Z := if s then Zneg m else Zpos m.

(** Whether a double is an integer, and an odd one: [m * 2^e] is an integer
    when [e >= 0] or when [2^(-e)] divides [m]. *)
Definition is_integer (x : float) : bool :=
  match Prim2SF x with
  | S754_zero _ => true
  | S754_finite _ m e => if 0 <=? e then true else Zpos m mod 2 ^ (- e) =? 0
  | _ => false
  end.

Definition is_odd_integer (x : float) : bool :=
  match Prim2SF x with
  | S754_finite _ m e =>
      if 0 <? e then false
      else (Zpos m mod 2 ^ (- e) =? 0) && Z.odd (Zpos m / 2 ^ (- e))
  | _ => false
  end.

(** [Math.round]: not-a-number, the infinities and the integers are returned
    as they are; otherwise the integer nearest to [x], a tie going to the
    larger one, computed on the exact value [(-1)^s * m * 2^e] of [x], and
    the zero of the sign of [x] when that integer is 0. *)
Definition Math_round (x : float) : float :=
  match Prim2SF x with
  | S754_finite s m e =>
      if 0 <=? e then x
      else
        let k := (signed s m + 2 ^ (- e - 1)) / 2 ^ (- e) in
        if k =? 0 then (if s then neg_zero else zero) else number_of_Z k
  | _ => x
  end.

(** [Math.min] on two numbers: not-a-number if one of them is, and [-0]
    below [+0]. *)
Definition Math_min (x y : float) : float :=
  if is_nan x || is_nan y then nan
  else if (x <? y)%float then x
  else if (y <? x)%float then y
  else if get_sign x then x else y.

(** [Math.pow], as ECMAScript's Number::exponentiate words it: the cases
    the standard fixes, in its order, and for a finite non-zero base and a
    finite non-zero exponent "an implementation-approximated value", which
    is [approx], the engine's. *)
Definition Math_pow (approx : float -> float -> float) (base exponent : float) : float :=
  if is_nan exponent then nan
  else if is_zero exponent then one
  else if is_nan base then nan
  else if is_infinity base then
    if get_sign base then
      if (zero <? exponent)%float
      then (if is_odd_integer exponent then neg_infinity else infinity)
      else (if is_odd_integer exponent then neg_zero else zero)
    else (if (zero <? exponent)%float then infinity else zero)
  else if is_zero base then
    if get_sign base then
      if (zero <? exponent)%float
      then (if is_odd_integer exponent then neg_zero else zero)
      else (if is_odd_integer exponent then neg_infinity else infinity)
    else (if (zero <? exponent)%float then zero else infinity)
  else if is_infinity exponent then
    if (abs base =? one)%float then nan
    else if get_sign exponent
    then (if (one <? abs base)%float then zero else infinity)
    else (if (one <? abs base)%float then infinity else zero)
  else if (base <? zero)%float && negb (is_integer exponent) then nan
  else approx base exponent.

(** ** The world *)

Record IdempotencyResult := { processedAt : Z }.

Inductive IdempotencyStatus := NOT_FOUND | PROCESSING | COMPLETED | FAILED.

Record IdempotencyRecord := {
  key : string;
  status : IdempotencyStatus;
  createdAt : Z;
  updatedAt : Z;
  result : option IdempotencyResult;
  error : option string;
}.

(** An entry of the [Map] inside [InMemoryIdempotencyStore]. *)
Record StoreEntry := { record : IdempotencyRecord; expiresAt : Z }.

Record ProcessingMetrics := {
  processed : Z;
  skipped : Z;
  failed : Z;
  totalDurationMs : Z;
}.

(** External calls, in the order they were made.  Each one carries what the
    other side answered. *)
Inductive Event :=
| EvInvoke                                         (* a scripted operation ran *)
| EvSleep (ms : float)                             (* sleep(ms) *)
| EvSqsDelete (receiptHandle : string) (accepted : bool)
                                                   (* DeleteMessageCommand sent *)
| EvPimcoreUpsert (productId : option string) (succeeded : bool)
                                                   (* pimcoreService.upsertProduct *)
| EvEmit (eventName : string) (productId : option string) (pimcoreId : string).
                                                   (* eventEmitter.emit *)

Record World := {
  trace : list Event;
  store : gmap string StoreEntry;
  metrics : ProcessingMetrics;
}.

Definition log (ev : Event) (w : World) : World :=
  {| trace := trace w ++ [ev]; store := store w; metrics := metrics w |}.

Definition set_store (s : gmap string StoreEntry) (w : World) : World :=
  {| trace := trace w; store := s; metrics := metrics w |}.

Definition set_metrics (m : ProcessingMetrics) (w : World) : World :=
  {| trace := trace w; store := store w; metrics := m |}.

Record PimcoreProductResponse := { pimcore_id : string }.

(** common/interfaces/product.interface.ts, the fields the consumer reads.
    [JSON.parse(...) as SqsMessageBody] checks nothing, so any field can be
    [undefined] ([None]) at run time. *)
Record LocalizedString := { ar : option string; en : option string }.

Record CanonicalProduct := {
  id : option string;
  name : option LocalizedString;
}.

Record EventMetadata := { batchId : option string }.

Record ProductIngestedEvent := {
  eventId : option string;
  correlationId : option string;
  product : option CanonicalProduct;
  metadata : option EventMetadata;
}.

(** [message.Body], told by what [JSON.parse] makes of it: a [SyntaxError],
    the value [null], or an object whose [detail] property is read next. *)
Inductive MessageBody :=
| NotJson (text : string)
| JsonNull
| JsonObject (detail : option ProductIngestedEvent).

Record Message := {
  MessageId : option string;
  ReceiptHandle : string;
  Body : MessageBody;
}.

(** The rest of the universe, as a function of the calls made so far. *)
Record Env := {
  env_now : list Event -> Z;                       (* Date.now() *)
  env_random : list Event -> float;                (* Math.random() *)
  env_pow : float -> float -> float;               (* behind Math.pow *)
  env_sqs_delete : list Event -> string -> Res unit;
  env_pimcore_upsert : list Event -> CanonicalProduct -> Res PimcoreProductResponse;
}.

(** ** Computations: state and exceptions *)

Definition M (A : Type) : Type := World -> Res A * World.

Definition ret {A} (a : A) : M A := fun w => (Ok a, w).
Definition throw {A} (e : Exn) : M A := fun w => (Throw e, w).
Definition bind {A B} (m : M A) (k : A -> M B) : M B :=
  fun w => match m w with
           | (Ok a, w') => k a w'
           | (Throw e, w') => (Throw e, w')
           end.
(** [try { body } catch (error) { handler }] *)
Definition try_catch {A} (body : M A) (handler : Exn -> M A) : M A :=
  fun w => match body w with
           | (Ok a, w') => (Ok a, w')
           | (Throw e, w') => handler e w'
           end.

#[export] Instance M_ret : MRet M := @ret.
#[export] Instance M_bind : MBind M := fun A B k m => bind m k.

(** Reading a property of a value that may be [undefined]. *)
Definition property_of {A} (x : option A) (what : string) : M A :=
  match x with
  | Some a => mret a
  | None => throw (TypeError ("Cannot read properties of undefined (reading '"
                              +:+ what +:+ "')")%string)
  end.

(** A [Logger] of NestJS, by its context. *)
Record Logger := { context : string }.

Definition sleep (ms : float) : M unit := fun w => (Ok tt, log (EvSleep ms) w).

Definition Date_now (env : Env) : M Z := fun w => (Ok (env_now env (trace w)), w).

(** An operation as the tests write them: a closure that counts its calls
    and settles by a script, [outcomes i] on its call number [i]. *)
Definition is_invoke (ev : Event) : bool :=
  match ev with EvInvoke => true | _ => false end.

Definition is_sleep (ev : Event) : bool :=
  match ev with EvSleep _ => true | _ => false end.

Definition invocations (tr : list Event) : nat := length (List.filter is_invoke tr).

Definition sleeps (tr : list Event) : nat := length (List.filter is_sleep tr).

Definition scripted {T} (outcomes : nat -> Res T) : M T :=
  fun w => (outcomes (invocations (trace w)), log EvInvoke w).

(** ** retry.util.ts *)
Module Retry.

Record RetryConfig := {
  maxAttempts : Z;
  baseDelayMs : float;
  maxDelayMs : float;
  exponentialBase : float;
  jitter : bool;
}.

Definition DEFAULT_CONFIG : RetryConfig :=
  {| maxAttempts := 3; baseDelayMs := 1000%float; maxDelayMs := 30000%float;
     exponentialBase := 2%float; jitter := true |}.

(** [Partial<RetryConfig>] and the spread [{ ...DEFAULT_CONFIG, ...config }]. *)
Record PartialRetryConfig := {
  p_maxAttempts : option Z;
  p_baseDelayMs : option float;
  p_maxDelayMs : option float;
  p_exponentialBase : option float;
  p_jitter : option bool;
}.

Definition spread (d : RetryConfig) (c : PartialRetryConfig) : RetryConfig :=
  {| maxAttempts := default (maxAttempts d) (p_maxAttempts c);
     baseDelayMs := default (baseDelayMs d) (p_baseDelayMs c);
     maxDelayMs := default (maxDelayMs d) (p_maxDelayMs c);
     exponentialBase := default (exponentialBase d) (p_exponentialBase c);
     jitter := default (jitter d) (p_jitter c) |}.

(** The delay before jitter: lines 27-28 of calculateDelay.  [approx] is the
    engine's part of [Math.pow]. *)
Definition capped_delay (approx : float -> float -> float) (attempt : float)
    (config : RetryConfig) : float :=
  let delay := (baseDelayMs config * Math_pow approx (exponentialBase config) attempt)%float in
  Math_min delay (maxDelayMs config).

(** [random] is what [Math.random()] returns; it is read only when
    [config.jitter] holds. *)
Definition calculateDelay (approx : float -> float -> float) (random : float)
    (attempt : float) (config : RetryConfig) : float :=
  let delay := capped_delay approx attempt config in
  let delay :=
    if jitter config then
      let jitterFactor := (0.5 + random)%float in
      (delay * jitterFactor)%float
    else delay in
  Math_round delay.

(** The template literal of a log line of [retryWithBackoff]: it is
    evaluated only when a logger was passed ([logger?.warn(...)]), and then
    it reads [lastError.message]. *)
Definition log_line (logger : option Logger) (lastError : Exn) : M unit :=
  match logger with
  | None => mret tt
  | Some _ => _ ← property_of (message_of lastError) "message"; mret tt
  end.

Section WithEnv.
Context (env : Env).

(** The body of the [for] loop, [remaining] iterations from [attempt] on:
    [remaining] is [maxAttempts - attempt], rounded up to 0.  What the
    [catch] block throws leaves the function. *)
Fixpoint retry_loop {T} (operation : M T) (fullConfig : RetryConfig)
    (logger : option Logger) (remaining : nat) (attempt : Z) (lastError : Exn) : M T :=
  match remaining with
  | O => throw lastError
  | S remaining' => fun w =>
      match operation w with
      | (Ok v, w1) => (Ok v, w1)
      | (Throw error, w1) =>
          let lastError := error in
          let catch_block : M unit :=
            if attempt <? maxAttempts fullConfig - 1 then
              let delay := calculateDelay (env_pow env) (env_random env (trace w1))
                             (number_of_Z attempt) fullConfig in
              log_line logger lastError;;
              sleep delay
            else
              log_line logger lastError in
          match catch_block w1 with
          | (Ok _, w2) =>
              retry_loop operation fullConfig logger remaining' (attempt + 1) lastError w2
          | (Throw thrown, w2) => (Throw thrown, w2)
          end
      end
  end.

Definition retryWithBackoff {T} (operation : M T) (config : PartialRetryConfig)
    (logger : option Logger) : M T :=
  let fullConfig := spread DEFAULT_CONFIG config in
  retry_loop operation fullConfig logger (Z.to_nat (maxAttempts fullConfig)) 0 Undefined.

End WithEnv.

End Retry.

(** ** circuit-breaker.util.ts *)
Module Breaker.

Inductive CircuitState := CLOSED | OPEN | HALF_OPEN.

Record CircuitBreakerConfig := {
  failureThreshold : Z;
  successThreshold : Z;
  timeout : Z;
  resetTimeout : Z;
}.

Definition DEFAULT_CONFIG : CircuitBreakerConfig :=
  {| failureThreshold := 5; successThreshold := 2;
     timeout := 30000; resetTimeout := 60000 |}.

Record PartialCircuitBreakerConfig := {
  p_failureThreshold : option Z;
  p_successThreshold : option Z;
  p_timeout : option Z;
  p_resetTimeout : option Z;
}.

Definition spread (d : CircuitBreakerConfig) (c : PartialCircuitBreakerConfig)
  : CircuitBreakerConfig :=
  {| failureThreshold := default (failureThreshold d) (p_failureThreshold c);
     successThreshold := default (successThreshold d) (p_successThreshold c);
     timeout := default (timeout d) (p_timeout c);
     resetTimeout := default (resetTimeout d) (p_resetTimeout c) |}.

(** The fields of a [CircuitBreaker] object. *)
Record CircuitBreaker := {
  state : CircuitState;
  failureCount : Z;
  successCount : Z;
  lastFailureTime : option Z;
  serviceName : string;
  config : CircuitBreakerConfig;
}.

Definition new_CircuitBreaker (serviceName : string)
    (config : PartialCircuitBreakerConfig) : CircuitBreaker :=
  {| state := CLOSED; failureCount := 0; successCount := 0;
     lastFailureTime := None; serviceName := serviceName;
     config := spread DEFAULT_CONFIG config |}.

Definition currentState (cb : CircuitBreaker) : CircuitState := state cb.

Definition transitionTo (newState : CircuitState) (cb : CircuitBreaker) : CircuitBreaker :=
  match newState with
  | CLOSED =>
      {| state := newState; failureCount := 0; successCount := 0;
         lastFailureTime := lastFailureTime cb;
         serviceName := serviceName cb; config := config cb |}
  | HALF_OPEN =>
      {| state := newState; failureCount := failureCount cb; successCount := 0;
         lastFailureTime := lastFailureTime cb;
         serviceName := serviceName cb; config := config cb |}
  | OPEN =>
      {| state := newState; failureCount := failureCount cb;
         successCount := successCount cb;
         lastFailureTime := lastFailureTime cb;
         serviceName := serviceName cb; config := config cb |}
  end.

(** [!this.lastFailureTime] holds for [null] and for the number 0. *)
Definition shouldAttemptReset (now : Z) (cb : CircuitBreaker) : bool :=
  match lastFailureTime cb with
  | None => true
  | Some t => if t =? 0 then true else resetTimeout (config cb) <=? now - t
  end.

(** The getter [isOpen]; it may move the breaker to HALF_OPEN. *)
Definition isOpen (now : Z) (cb : CircuitBreaker) : bool * CircuitBreaker :=
  match state cb with
  | OPEN =>
      if shouldAttemptReset now cb then (false, transitionTo HALF_OPEN cb)
      else (true, cb)
  | _ => (false, cb)
  end.

Definition onSuccess (cb : CircuitBreaker) : CircuitBreaker :=
  let cb := {| state := state cb; failureCount := 0;
               successCount := successCount cb;
               lastFailureTime := lastFailureTime cb;
               serviceName := serviceName cb; config := config cb |} in
  match state cb with
  | HALF_OPEN =>
      let cb := {| state := state cb; failureCount := failureCount cb;
                   successCount := successCount cb + 1;
                   lastFailureTime := lastFailureTime cb;
                   serviceName := serviceName cb; config := config cb |} in
      if successThreshold (config cb) <=? successCount cb
      then transitionTo CLOSED cb else cb
  | _ => cb
  end.

(** [onFailure(error)]: the counters are set first; the log line then reads
    [error.message], which throws on [undefined] and leaves the method
    before the state is looked at. *)
Definition onFailure (now : Z) (error : Exn) (cb : CircuitBreaker)
  : Res unit * CircuitBreaker :=
  let cb := {| state := state cb; failureCount := failureCount cb + 1;
               successCount := 0;
               lastFailureTime := Some now;
               serviceName := serviceName cb; config := config cb |} in
  match message_of error with
  | None =>
      (Throw (TypeError "Cannot read properties of undefined (reading 'message')"), cb)
  | Some _ =>
      (Ok tt,
       match state cb with
       | HALF_OPEN => transitionTo OPEN cb
       | _ =>
           if failureThreshold (config cb) <=? failureCount cb
           then transitionTo OPEN cb else cb
       end)
  end.

Definition reset (cb : CircuitBreaker) : CircuitBreaker :=
  let cb := transitionTo CLOSED cb in
  {| state := state cb; failureCount := failureCount cb;
     successCount := successCount cb; lastFailureTime := None;
     serviceName := serviceName cb; config := config cb |}.

(** How the promise of an operation ends, seen from [withTimeout]:
    [Unsettled] is an operation still pending when the timer fires. *)
Inductive Settled (T : Type) : Type :=
| Resolved (result : T)
| Rejected (error : Exn)
| Unsettled.
Arguments Resolved {T} result.
Arguments Rejected {T} error.
Arguments Unsettled {T}.

Definition Operation (T : Type) : Type := World -> Settled T * World.

Definition withTimeout {T} (cb : CircuitBreaker) (operation : Operation T) : M T :=
  fun w =>
    match operation w with
    | (Resolved result, w') => (Ok result, w')
    | (Rejected error, w') => (Throw error, w')
    | (Unsettled, w') =>
        (Throw (Error ("Operation timed out after " +:+ pretty (timeout (config cb))
                        +:+ "ms")%string), w')
    end.

Section WithEnv.
Context (env : Env).

(** [execute]: the breaker object is passed in and handed back next to the
    outcome and the world.  In the [catch] block, what [onFailure] throws
    takes the place of [throw error]. *)
Definition execute {T} (operation : Operation T) (cb : CircuitBreaker) (w : World)
  : Res T * CircuitBreaker * World :=
  let '(open, cb) := isOpen (env_now env (trace w)) cb in
  if open then (Throw (CircuitBreakerOpenException (serviceName cb)), cb, w)
  else
    match withTimeout cb operation w with
    | (Ok result, w') => (Ok result, onSuccess cb, w')
    | (Throw error, w') =>
        match onFailure (env_now env (trace w')) error cb with
        | (Ok _, cb) => (Throw error, cb, w')
        | (Throw thrown, cb) => (Throw thrown, cb, w')
        end
    end.

(** A caller that waits [idle] ms and then runs [execute] on an operation
    that settles as [outcome]. *)
Record Call := { idle : float; outcome : Settled unit }.

Definition scripted_operation {T} (o : Settled T) : Operation T :=
  fun w => (o, log EvInvoke w).

Definition call (st : CircuitBreaker * World) (c : Call) : CircuitBreaker * World :=
  let '(cb, w) := st in
  let w := snd (sleep (idle c) w) in
  let '(_, cb, w) := execute (scripted_operation (outcome c)) cb w in
  (cb, w).

Definition run (calls : list Call) (st : CircuitBreaker * World) : CircuitBreaker * World :=
  fold_left call calls st.

End WithEnv.

(** *** The state machine as the design text words it

    The text speaks of "consecutive" failures and successes: they are counted
    here on the history of the calls that were let through, most recent
    first, not by counters. *)

Definition succeeded {T} (o : Settled T) : bool :=
  match o with Resolved _ => true | _ => false end.

Fixpoint consecutive (b : bool) (recent_first : list bool) : Z :=
  match recent_first with
  | [] => 0
  | x :: rest => if Bool.eqb x b then 1 + consecutive b rest else 0
  end.

Record Machine := {
  m_state : CircuitState;
  m_history : list bool;          (* outcomes of the calls let through *)
  m_lastFailure : Z;              (* when the latest failure was recorded *)
  m_trace : list Event;
}.

Section Machine.
Context (env : Env) (cfg : CircuitBreakerConfig).

(** A call that is let through while the machine is in [st]. *)
Definition machine_trial (st : CircuitState) (m : Machine) (o : Settled unit)
    (tr : list Event) : Machine :=
  let tr := tr ++ [EvInvoke] in
  let hist := succeeded o :: m_history m in
  if succeeded o then
    {| m_state :=
         match st with
         | HALF_OPEN =>
             if successThreshold cfg <=? consecutive true hist then CLOSED else HALF_OPEN
         | _ => st
         end;
       m_history := hist; m_lastFailure := m_lastFailure m; m_trace := tr |}
  else
    {| m_state :=
         match st with
         | HALF_OPEN => OPEN
         | _ => if failureThreshold cfg <=? consecutive false hist then OPEN else st
         end;
       m_history := hist; m_lastFailure := env_now env tr; m_trace := tr |}.

Definition machine_step (m : Machine) (c : Call) : Machine :=
  let tr := m_trace m ++ [EvSleep (idle c)] in
  match m_state m with
  | OPEN =>
      if resetTimeout cfg <=? env_now env tr - m_lastFailure m
      then machine_trial HALF_OPEN m (outcome c) tr
      else {| m_state := OPEN; m_history := m_history m;
              m_lastFailure := m_lastFailure m; m_trace := tr |}
  | st => machine_trial st m (outcome c) tr
  end.

Definition machine_run (calls : list Call) (m : Machine) : Machine :=
  fold_left machine_step calls m.

End Machine.

End Breaker.

(** ** idempotency.util.ts *)
Module Idempotency.

(** *** InMemoryIdempotencyStore, on the [Map] itself

    [now] is the reading of [Date.now()] inside the method. *)

Definition InMemory_get (now : Z) (key : string) (s : gmap string StoreEntry)
  : option IdempotencyRecord * gmap string StoreEntry :=
  match s !! key with
  | None => (None, s)
  | Some entry =>
      if expiresAt entry <? now then (None, delete key s)
      else (Some (record entry), s)
  end.

Definition InMemory_set (now : Z) (key : string) (record : IdempotencyRecord)
    (ttlMs : Z) (s : gmap string StoreEntry) : gmap string StoreEntry :=
  <[key := {| record := record; expiresAt := now + ttlMs |}]> s.

Definition InMemory_delete (key : string) (s : gmap string StoreEntry)
  : gmap string StoreEntry :=
  delete key s.

(** *** The interface [IdempotencyStore] *)
Record IdempotencyStore := {
  store_get : string -> M (option IdempotencyRecord);
  store_set : string -> IdempotencyRecord -> Z -> M unit;
  store_delete : string -> M unit;
}.

Record IdempotencyManager := {
  mgr_store : IdempotencyStore;
  ttlMs : Z;
}.

Section WithEnv.
Context (env : Env).

Definition InMemoryIdempotencyStore : IdempotencyStore :=
  {| store_get := fun key w =>
       let '(r, s) := InMemory_get (env_now env (trace w)) key (store w) in
       (Ok r, set_store s w);
     store_set := fun key record ttlMs w =>
       (Ok tt, set_store (InMemory_set (env_now env (trace w)) key record ttlMs (store w)) w);
     store_delete := fun key w =>
       (Ok tt, set_store (InMemory_delete key (store w)) w) |}.

(** [new Date().toISOString()]: the instant, not its rendering. *)
Definition new_Date : M Z := Date_now env.

Definition checkAndLock (m : IdempotencyManager) (key : string) : M IdempotencyStatus :=
  existing ← store_get (mgr_store m) key;
  match existing with
  | Some existing => mret (status existing)
  | None =>
      createdAt ← new_Date;
      updatedAt ← new_Date;
      let record := {| key := key; status := PROCESSING;
                       createdAt := createdAt; updatedAt := updatedAt;
                       result := None; error := None |} in
      store_set (mgr_store m) key record (ttlMs m);;
      mret NOT_FOUND
  end.

Definition markCompleted (m : IdempotencyManager) (key : string)
    (result : option IdempotencyResult) : M unit :=
  createdAt ← new_Date;
  updatedAt ← new_Date;
  let record := {| key := key; status := COMPLETED;
                   createdAt := createdAt; updatedAt := updatedAt;
                   result := result; error := None |} in
  store_set (mgr_store m) key record (ttlMs m).

Definition markFailed (m : IdempotencyManager) (key : string) (error : string) : M unit :=
  createdAt ← new_Date;
  updatedAt ← new_Date;
  let record := {| key := key; status := FAILED;
                   createdAt := createdAt; updatedAt := updatedAt;
                   result := None; error := Some error |} in
  store_set (mgr_store m) key record (ttlMs m).

Definition release (m : IdempotencyManager) (key : string) : M unit :=
  store_delete (mgr_store m) key.

End WithEnv.

(** A template literal prints [undefined] as the word. *)
Definition interpolate (x : option string) : string := default "undefined"%string x.

Definition generateKey (productId eventId : option string) : string :=
  ("product:" +:+ interpolate productId +:+ ":event:" +:+ interpolate eventId)%string.

End Idempotency.

(** ** idempotency.service.ts, sqs.service.ts, sqs-consumer.service.ts *)
Module Consumer.
Import Idempotency.

Section WithEnv.
Context (env : Env).

(** *** IdempotencyService, on the in-memory store ([redisService.isAvailable]
    false); [ttlMs] is the configured [idempotency.ttlMs]. *)
Definition IdempotencyService (ttlMs : Z) : IdempotencyManager :=
  {| mgr_store := InMemoryIdempotencyStore env; ttlMs := ttlMs |}.

Definition service_checkAndLock (manager : IdempotencyManager)
    (productId eventId : option string) : M IdempotencyStatus :=
  checkAndLock env manager (generateKey productId eventId).

Definition service_markCompleted (manager : IdempotencyManager)
    (productId eventId : option string) (result : option IdempotencyResult) : M unit :=
  markCompleted env manager (generateKey productId eventId) result.

Definition service_markFailed (manager : IdempotencyManager)
    (productId eventId : option string) (error : string) : M unit :=
  markFailed env manager (generateKey productId eventId) error.

Definition service_release (manager : IdempotencyManager)
    (productId eventId : option string) : M unit :=
  release manager (generateKey productId eventId).

Definition isProcessed (status : IdempotencyStatus) : bool :=
  match status with COMPLETED => true | _ => false end.

Definition isProcessing (status : IdempotencyStatus) : bool :=
  match status with PROCESSING => true | _ => false end.

(** *** SqsService.deleteMessage *)
Definition send_DeleteMessageCommand (receiptHandle : string) : M unit :=
  fun w =>
    let r := env_sqs_delete env (trace w) receiptHandle in
    (r, log (EvSqsDelete receiptHandle (is_Ok r)) w).

Definition SqsService_logger : Logger := {| context := "SqsService" |}.

Definition deleteMessage (receiptHandle : string) : M unit :=
  Retry.retryWithBackoff env (send_DeleteMessageCommand receiptHandle)
    {| Retry.p_maxAttempts := Some 3; Retry.p_baseDelayMs := Some 500%float;
       Retry.p_maxDelayMs := None; Retry.p_exponentialBase := None;
       Retry.p_jitter := None |}
    (Some SqsService_logger).

(** *** The collaborators of processProduct *)
Definition pimcoreService_upsertProduct (product : CanonicalProduct)
  : M PimcoreProductResponse :=
  fun w =>
    let r := env_pimcore_upsert env (trace w) product in
    (r, log (EvPimcoreUpsert (id product) (is_Ok r)) w).

Definition eventEmitter_emit (eventName : string) (product : CanonicalProduct)
    (pimcoreId : string) : M unit :=
  fun w => (Ok tt, log (EvEmit eventName (id product) pimcoreId) w).

(** [a || b] on strings that may be undefined: the first one that is
    neither undefined nor empty, else [b]. *)
Definition or_else (a b : option string) : option string :=
  match a with
  | Some s => if String.eqb s "" then b else a
  | None => b
  end.

(** *** SqsConsumerService *)

Definition incr_processed : M unit := fun w =>
  (Ok tt, set_metrics {| processed := processed (metrics w) + 1;
                         skipped := skipped (metrics w);
                         failed := failed (metrics w);
                         totalDurationMs := totalDurationMs (metrics w) |} w).

Definition incr_skipped : M unit := fun w =>
  (Ok tt, set_metrics {| processed := processed (metrics w);
                         skipped := skipped (metrics w) + 1;
                         failed := failed (metrics w);
                         totalDurationMs := totalDurationMs (metrics w) |} w).

Definition incr_failed : M unit := fun w =>
  (Ok tt, set_metrics {| processed := processed (metrics w);
                         skipped := skipped (metrics w);
                         failed := failed (metrics w) + 1;
                         totalDurationMs := totalDurationMs (metrics w) |} w).

Definition processProduct (product : CanonicalProduct)
    (eventDetail : ProductIngestedEvent) (correlationId : option string) : M unit :=
  (* the first log line reads product.name.en *)
  _ ← property_of (name product) "en";
  pimcoreResult ← pimcoreService_upsertProduct product;
  (* the payload reads eventDetail.metadata.batchId *)
  _ ← property_of (metadata eventDetail) "batchId";
  eventEmitter_emit "product.synced.pimcore" product (pimcore_id pimcoreResult).

Definition JSON_parse (body : MessageBody) : M MessageBody :=
  match body with
  | NotJson text => throw (SyntaxError ("Unexpected token in JSON: " +:+ text)%string)
  | _ => mret body
  end.

(** [body.detail] *)
Definition detail_of (body : MessageBody) : M (option ProductIngestedEvent) :=
  match body with
  | JsonObject detail => mret detail
  | _ => throw (TypeError "Cannot read properties of null (reading 'detail')"%string)
  end.

(** Lines 139-161: the inner [try]. *)
Definition process_and_mark (manager : IdempotencyManager) (message : Message)
    (product : CanonicalProduct) (eventDetail : ProductIngestedEvent)
    (correlationId : option string) : M unit :=
  try_catch
    (processProduct product eventDetail correlationId;;
     processedAt ← new_Date env;
     service_markCompleted manager (id product) (eventId eventDetail)
       (Some {| processedAt := processedAt |});;
     deleteMessage (ReceiptHandle message);;
     incr_processed)
    (fun error =>
       message ← property_of (message_of error) "message";
       service_markFailed manager (id product) (eventId eventDetail) message;;
       incr_failed;;
       throw error).

(** Lines 162-173: the outer [catch]. *)
Definition rethrow_as_SqsException (message : Message) (error : Exn) : M unit :=
  sqsError_message ← property_of (message_of error) "message";
  throw (SqsException ("Message processing failed: " +:+ sqsError_message)%string
                      "processMessage" (MessageId message) error).

Definition processMessageWithRetry (manager : IdempotencyManager) (message : Message)
  : M unit :=
  try_catch
    (body ← JSON_parse (Body message);
     eventDetail ← detail_of body;
     (* if (!eventDetail?.product) *)
     match eventDetail with
     | None => deleteMessage (ReceiptHandle message)
     | Some eventDetail =>
     match product eventDetail with
     | None => deleteMessage (ReceiptHandle message)
     | Some product =>
         let eventId := eventId eventDetail in
         let correlationId := or_else (correlationId eventDetail) eventId in
         status ← service_checkAndLock manager (id product) eventId;
         if isProcessed status then
           incr_skipped;;
           deleteMessage (ReceiptHandle message)
         else if isProcessing status then
           mret tt
         else
           process_and_mark manager message product eventDetail correlationId
     end end)
    (rethrow_as_SqsException message).

End WithEnv.

(** What the queue saw of a receipt handle. *)
Definition acknowledged (receiptHandle : string) (tr : list Event) : bool :=
  existsb (fun ev => match ev with
                     | EvSqsDelete h true => String.eqb h receiptHandle
                     | _ => false
                     end) tr.

Definition delete_requested (receiptHandle : string) (tr : list Event) : bool :=
  existsb (fun ev => match ev with
                     | EvSqsDelete h _ => String.eqb h receiptHandle
                     | _ => false
                     end) tr.

Definition is_delete_of (receiptHandle : string) (ev : Event) : bool :=
  match ev with EvSqsDelete h _ => String.eqb h receiptHandle | _ => false end.

(** Calls that reach the downstream systems. *)
Definition is_downstream (ev : Event) : bool :=
  match ev with EvPimcoreUpsert _ _ | EvEmit _ _ _ => true | _ => false end.

Definition downstream_calls (tr : list Event) : list Event :=
  List.filter is_downstream tr.

End Consumer.

(** ** Vocabulary of the properties *)

(** The formula of the design text on exact numbers,
    [min(baseDelay * exponentialBase^n, maxDelay)]. *)
Definition formula (baseDelay exponentialBase maxDelay : Q) (n : Z) : Q :=
  Qmin (baseDelay * exponentialBase ^ n) maxDelay.

(** The exact value of a finite double. *)
Definition value_of (x : float) : option Q :=
  match Prim2SF x with
  | S754_zero _ => Some 0%Q
  | S754_finite s m e => Some (inject_Z (signed s m) * 2 ^ e)%Q
  | _ => None
  end.

Definition has_value (x : float) (q : Q) : Prop :=
  match value_of x with Some v => (v == q)%Q | None => False end.

(** What comes out of [Math.round] has no fraction: it is an integer, or
    not a finite number at all. *)
Definition rounded (x : float) : Prop :=
  match Prim2SF x with S754_finite _ _ _ => is_integer x = true | _ => True end.

(** [p * 2^k] for [k >= 0], and the binary64 representation of a positive
    integer below 2^53: its significand shifted up to 53 bits. *)
Definition shl (p : positive) (k : Z) : positive :=
  match k with Zpos q => Pos.iter xO p q | _ => p end.

Definition double_of_positive (s : bool) (p : positive) : spec_float :=
  S754_finite s (shl p (53 - Zpos (digits2_pos p))) (Zpos (digits2_pos p) - 53).

(** The log line of a failed attempt can be written: no logger was passed,
    or the error has a [message] to print. *)
Definition loggable (logger : option Logger) (e : Exn) : Prop :=
  logger = None \/ message_of e <> None.

(** A call outcome whose failure the log line of [onFailure] can print: a
    success, a timeout, or a rejection with an error that has a [message]. *)
Definition has_message (e : Exn) : bool :=
  match message_of e with Some _ => true | None => false end.

Definition printable {T} (o : Breaker.Settled T) : bool :=
  match o with Breaker.Rejected e => has_message e | _ => true end.

(** The entries the manager writes, [ttl] being its [ttlMs]. *)
Definition lock_entry (ttl : Z) (key : string) (now : Z) : StoreEntry :=
  {| record := {| key := key; status := PROCESSING; createdAt := now;
                  updatedAt := now; result := None; error := None |};
     expiresAt := now + ttl |}.

Definition completed_entry (ttl : Z) (key : string) (now : Z)
    (r : option IdempotencyResult) : StoreEntry :=
  {| record := {| key := key; status := COMPLETED; createdAt := now;
                  updatedAt := now; result := r; error := None |};
     expiresAt := now + ttl |}.

Definition failed_entry (ttl : Z) (key : string) (now : Z) (err : string) : StoreEntry :=
  {| record := {| key := key; status := FAILED; createdAt := now;
                  updatedAt := now; result := None; error := Some err |};
     expiresAt := now + ttl |}.

(** What links a breaker object to the machine of the design text. *)
Record agrees (cfg : Breaker.CircuitBreakerConfig) (cb : Breaker.CircuitBreaker)
    (w : World) (m : Breaker.Machine) : Prop := {
  agree_state : Breaker.state cb = Breaker.m_state m;
  agree_config : Breaker.config cb = cfg;
  agree_trace : trace w = Breaker.m_trace m;
  agree_closed : Breaker.state cb = Breaker.CLOSED ->
                 Breaker.failureCount cb = Breaker.consecutive false (Breaker.m_history m);
  agree_half : Breaker.state cb = Breaker.HALF_OPEN ->
               Breaker.successCount cb = Breaker.consecutive true (Breaker.m_history m);
  agree_open : Breaker.state cb = Breaker.OPEN ->
               Breaker.lastFailureTime cb = Some (Breaker.m_lastFailure m)
               /\ Breaker.m_lastFailure m <> 0
               /\ Breaker.consecutive true (Breaker.m_history m) = 0;
}.

(** What a run of the delete-with-retry loop leaves behind. *)
Definition delete_traffic (h : string) (r : Res unit) (w w' : World)
    (new : list Event) : Prop :=
  trace w' = trace w ++ new
  /\ store w' = store w /\ metrics w' = metrics w
  /\ Forall (fun ev => is_sleep ev || Consumer.is_delete_of h ev = true) new
  /\ is_Ok r = Consumer.acknowledged h new.

(** The world after a downstream failure with message [msg]. *)
Definition world_after_failure (env : Env) (ttl : Z) (key : string)
    (productId : option string) (msg : string) (w : World) : World :=
  let w1 := log (EvPimcoreUpsert productId false) w in
  snd (Consumer.incr_failed
         (set_store (<[key := failed_entry ttl key (env_now env (trace w1)) msg]> (store w)) w1)).

(** The world after a downstream success, before the delete is sent. *)
Definition world_after_success (env : Env) (ttl : Z) (key : string)
    (productId : option string) (resp : PimcoreProductResponse) (w : World) : World :=
  let w1 := log (EvEmit "product.synced.pimcore" productId (pimcore_id resp))
                (log (EvPimcoreUpsert productId true) w) in
  let now := env_now env (trace w1) in
  set_store (<[key := completed_entry ttl key now (Some {| processedAt := now |})]> (store w)) w1.

(** The keys on which the consumer goes on to process: no record, an
    expired one, or one that is neither COMPLETED nor PROCESSING. *)
Definition proceeds_to_processing (now : Z) (entry : option StoreEntry) : Prop :=
  match entry with
  | None => True
  | Some e =>
      expiresAt e < now
      \/ (now <= expiresAt e
          /\ status (record e) <> COMPLETED /\ status (record e) <> PROCESSING)
  end.

(** ** Scenarios *)

Definition policy_3_2 : Retry.RetryConfig :=
  {| Retry.maxAttempts := 3; Retry.baseDelayMs := 1%float;
     Retry.maxDelayMs := 30000%float;
     Retry.exponentialBase := 1.5%float; Retry.jitter := false |}.

(** A base delay of a millisecond and a half. *)
Definition policy_half_ms : Retry.RetryConfig :=
  {| Retry.maxAttempts := 3; Retry.baseDelayMs := 1.5%float;
     Retry.maxDelayMs := 30000%float;
     Retry.exponentialBase := 2%float; Retry.jitter := false |}.

(** The policy of test/retry.spec.ts. *)
Definition test_policy : Retry.RetryConfig :=
  {| Retry.maxAttempts := 3; Retry.baseDelayMs := 1000%float;
     Retry.maxDelayMs := 30000%float;
     Retry.exponentialBase := 2%float; Retry.jitter := false |}.

Definition test_retry_config : Retry.PartialRetryConfig :=
  {| Retry.p_maxAttempts := Some 3; Retry.p_baseDelayMs := Some 10%float;
     Retry.p_maxDelayMs := None; Retry.p_exponentialBase := None;
     Retry.p_jitter := None |}.

(** An engine whose approximation of a power is the nearest double of the
    exact power, for the integer exponents up to 2048 in magnitude; the
    scenarios ask it for nothing else. *)
Definition nearest_pow (base exponent : float) : float :=
  match Prim2SF base, Prim2SF exponent with
  | S754_finite s m e, S754_finite sn mn en =>
      if is_integer exponent && (abs exponent <=? 2048)%float then
        let n := if 0 <=? en then Zpos mn * 2 ^ en else Zpos mn / 2 ^ (- en) in
        let sign := s && Z.odd n in
        if sn then
          SF2Prim (SFdiv prec emax (S754_finite sign 1 0)
                     (S754_finite false (m ^ Z.to_pos n)%positive (e * n)))
        else
          SF2Prim (binary_normalize prec emax (signed sign (m ^ Z.to_pos n)%positive)
                     (e * n) false)
      else nan
  | _, _ => nan
  end.

(** "should retry on failure": two failures, then success. *)
Definition fails_twice (i : nat) : Res string :=
  if (i <? 2)%nat then Throw (Error "temporary failure") else Ok "success"%string.

(** "should throw after max attempts". *)
Definition fails_always (i : nat) : Res string := Throw (Error "permanent failure").

Definition test_logger : Logger := {| context := "RetryTest" |}.

(** One failure that carries nothing, then success. *)
Definition fails_once_with_undefined (i : nat) : Res string :=
  if (i <? 1)%nat then Throw Undefined else Ok "success"%string.

Definition four_attempts_config : Retry.PartialRetryConfig :=
  {| Retry.p_maxAttempts := Some 4; Retry.p_baseDelayMs := Some 10%float;
     Retry.p_maxDelayMs := None; Retry.p_exponentialBase := None;
     Retry.p_jitter := None |}.

Definition single_attempt_config : Retry.PartialRetryConfig :=
  {| Retry.p_maxAttempts := Some 1; Retry.p_baseDelayMs := None;
     Retry.p_maxDelayMs := None; Retry.p_exponentialBase := None;
     Retry.p_jitter := None |}.

Definition pim_1 : PimcoreProductResponse := {| pimcore_id := "pim-1" |}.

(** Every collaborator answers; the clock starts at 1000 and moves by one
    millisecond per external call. *)
Definition env_up : Env :=
  {| env_now := fun tr => 1000 + Z.of_nat (length tr);
     env_random := fun _ => 0%float;
     env_pow := nearest_pow;
     env_sqs_delete := fun _ _ => Ok tt;
     env_pimcore_upsert := fun _ _ => Ok pim_1 |}.

(** The queue refuses every delete. *)
Definition env_queue_down : Env :=
  {| env_now := fun tr => 1000 + Z.of_nat (length tr);
     env_random := fun _ => 0%float;
     env_pow := nearest_pow;
     env_sqs_delete := fun _ _ => Throw (Error "queue down");
     env_pimcore_upsert := fun _ _ => Ok pim_1 |}.

(** The PIM refuses every upsert. *)
Definition env_pim_down : Env :=
  {| env_now := fun tr => 1000 + Z.of_nat (length tr);
     env_random := fun _ => 0%float;
     env_pow := nearest_pow;
     env_sqs_delete := fun _ _ => Ok tt;
     env_pimcore_upsert := fun _ _ => Throw (Error "pimcore unavailable") |}.

Definition day : Z := 86400000.

Definition no_metrics : ProcessingMetrics :=
  {| processed := 0; skipped := 0; failed := 0; totalDurationMs := 0 |}.

Definition w_empty : World := {| trace := []; store := ∅; metrics := no_metrics |}.

Definition shirt : CanonicalProduct :=
  {| id := Some "p1"%string; name := Some {| ar := None; en := Some "Shirt"%string |} |}.

Definition shirt_event : ProductIngestedEvent :=
  {| eventId := Some "e1"%string; correlationId := None; product := Some shirt;
     metadata := Some {| batchId := Some "b1"%string |} |}.

Definition shirt_key : string := "product:p1:event:e1".

Definition msg_shirt : Message :=
  {| MessageId := Some "m1"%string; ReceiptHandle := "rh-1";
     Body := JsonObject (Some shirt_event) |}.

Definition msg_not_json : Message :=
  {| MessageId := Some "m2"%string; ReceiptHandle := "rh-2"; Body := NotJson "{" |}.

Definition msg_no_product : Message :=
  {| MessageId := Some "m3"%string; ReceiptHandle := "rh-3";
     Body := JsonObject (Some {| eventId := Some "e3"%string; correlationId := None;
                                 product := None; metadata := None |}) |}.

Definition w_completed : World :=
  {| trace := []; store := {[ shirt_key := completed_entry day shirt_key 500 None ]};
     metrics := no_metrics |}.


Definition open_breaker : Breaker.CircuitBreaker :=
  {| Breaker.state := Breaker.OPEN; Breaker.failureCount := 3;
     Breaker.successCount := 0; Breaker.lastFailureTime := Some 990;
     Breaker.serviceName := "test-service";
     Breaker.config := {| Breaker.failureThreshold := 3; Breaker.successThreshold := 2;
                          Breaker.timeout := 5000; Breaker.resetTimeout := 100 |} |}.

(** The configuration of the breaker tests. *)
Definition test_breaker_config : Breaker.PartialCircuitBreakerConfig :=
  {| Breaker.p_failureThreshold := Some 3; Breaker.p_successThreshold := Some 2;
     Breaker.p_timeout := Some 5000; Breaker.p_resetTimeout := Some 100 |}.

Definition rejecting_with_undefined : Breaker.Call :=
  {| Breaker.idle := 0%float; Breaker.outcome := Breaker.Rejected Undefined |}.

Definition failing_call : Breaker.Call :=
  {| Breaker.idle := 0%float; Breaker.outcome := Breaker.Rejected (Error "failure") |}.

(** * More of the code *)

(** ** circuit-breaker.util.ts: the registry of breakers *)
Definition getCircuitBreaker (serviceName : string)
    (config : Breaker.PartialCircuitBreakerConfig)
    (circuitBreakers : gmap string Breaker.CircuitBreaker)
  : Breaker.CircuitBreaker * gmap string Breaker.CircuitBreaker :=
  match circuitBreakers !! serviceName with
  | Some cb => (cb, circuitBreakers)
  | None =>
      let cb := Breaker.new_CircuitBreaker serviceName config in
      (cb, <[serviceName := cb]> circuitBreakers)
  end.

(** ** pimcore.service.ts: upsertProduct *)
Module Pimcore.

(** The [RetryConfig] object built in onModuleInit, passed where a
    [Partial<RetryConfig>] is expected. *)
Definition as_partial (c : Retry.RetryConfig) : Retry.PartialRetryConfig :=
  {| Retry.p_maxAttempts := Some (Retry.maxAttempts c);
     Retry.p_baseDelayMs := Some (Retry.baseDelayMs c);
     Retry.p_maxDelayMs := Some (Retry.maxDelayMs c);
     Retry.p_exponentialBase := Some (Retry.exponentialBase c);
     Retry.p_jitter := Some (Retry.jitter c) |}.

(** The promise of an [async] arrow function, seen from the breaker:
    [late] tells that the timer of the breaker fires before it settles. *)
Definition async_operation {T} (late : bool) (body : M T) : Breaker.Operation T :=
  fun w =>
    match body w with
    | (r, w') =>
        if late then (Breaker.Unsettled, w')
        else match r with
             | Ok v => (Breaker.Resolved v, w')
             | Throw e => (Breaker.Rejected e, w')
             end
    end.

Section WithEnv.
Context (env : Env).

Definition PimcoreService_logger : Logger := {| context := "PimcoreService" |}.

(** [doUpsertProduct] is the HTTP exchange, an operation of its own. *)
Definition upsertProduct {T} (doUpsertProduct : M T) (retryConfig : Retry.RetryConfig)
    (late : bool) (circuitBreaker : Breaker.CircuitBreaker) (w : World)
  : Res T * Breaker.CircuitBreaker * World :=
  Breaker.execute env
    (async_operation late
       (Retry.retryWithBackoff env doUpsertProduct (as_partial retryConfig)
          (Some PimcoreService_logger)))
    circuitBreaker w.

(** [n] business operations one after the other on the same breaker. *)
Fixpoint upsert_each {T} (n : nat) (doUpsertProduct : M T)
    (retryConfig : Retry.RetryConfig) (st : Breaker.CircuitBreaker * World)
  : Breaker.CircuitBreaker * World :=
  match n with
  | O => st
  | S n' =>
      let '(_, cb, w) := upsertProduct doUpsertProduct retryConfig false (fst st) (snd st) in
      upsert_each n' doUpsertProduct retryConfig (cb, w)
  end.

End WithEnv.
End Pimcore.

(** What every breaker reached by calls satisfies. *)
Definition breaker_invariant (cb : Breaker.CircuitBreaker) : Prop :=
  0 <= Breaker.failureCount cb /\ 0 <= Breaker.successCount cb
  /\ match Breaker.state cb with
     | Breaker.CLOSED =>
         Breaker.failureCount cb < Breaker.failureThreshold (Breaker.config cb)
         /\ Breaker.successCount cb = 0
     | Breaker.HALF_OPEN =>
         Breaker.successCount cb < Breaker.successThreshold (Breaker.config cb)
     | Breaker.OPEN =>
         Breaker.lastFailureTime cb <> None /\ Breaker.successCount cb = 0
     end.

(** ** idempotency.util.ts: the rest of InMemoryIdempotencyStore *)
Definition InMemory_clear (s : gmap string StoreEntry) : gmap string StoreEntry := ∅.

Definition InMemory_size (s : gmap string StoreEntry) : nat := size s.

(** Whether a string holds a colon, the separator of [generateKey]. *)
Fixpoint has_colon (s : string) : bool :=
  match s with
  | EmptyString => false
  | String c rest => if Ascii.eqb c ":"%char then true else has_colon rest
  end.

(** ** idempotency.util.ts: RedisIdempotencyStore *)
Module Redis.
Import Idempotency.

(** The methods of the ioredis client that the store calls. *)
Record RedisClient := {
  redis_get : string -> M (option string);
  redis_set : string -> string -> string -> Z -> M unit;
  redis_del : string -> M unit;
}.

Definition keyPrefix : string := "idempotency:".

Section Store.
(** [JSON.stringify] and [JSON.parse] on records: parsing throws, gives a
    falsy value such as [null] ([None]), or a record. *)
Context (redis : RedisClient)
        (JSON_stringify : IdempotencyRecord -> string)
        (JSON_parse : string -> Res (option IdempotencyRecord)).

(** [data ? JSON.parse(data) : null] *)
Definition parse_if_truthy (data : option string) : M (option IdempotencyRecord) :=
  match data with
  | Some text =>
      if String.eqb text "" then mret None
      else fun w : World => (JSON_parse text, w)
  | None => mret None
  end.

Definition Redis_get (key : string) : M (option IdempotencyRecord) :=
  try_catch
    (data ← redis_get redis (keyPrefix +:+ key)%string;
     parse_if_truthy data)
    (fun error => mret None).

Definition Redis_set (key : string) (record : IdempotencyRecord) (ttlMs : Z) : M unit :=
  try_catch
    (redis_set redis (keyPrefix +:+ key)%string (JSON_stringify record) "PX" ttlMs)
    (fun error => throw error).

Definition Redis_delete (key : string) : M unit :=
  try_catch (redis_del redis (keyPrefix +:+ key)%string) (fun error => mret tt).

Definition RedisIdempotencyStore : IdempotencyStore :=
  {| store_get := Redis_get; store_set := Redis_set; store_delete := Redis_delete |}.

End Store.
End Redis.

(** The policy [deleteMessage] retries with. *)
Definition deleteMessage_config : Retry.RetryConfig :=
  Retry.spread Retry.DEFAULT_CONFIG
    {| Retry.p_maxAttempts := Some 3; Retry.p_baseDelayMs := Some 500%float;
       Retry.p_maxDelayMs := None; Retry.p_exponentialBase := None;
       Retry.p_jitter := None |}.

(** Every call of the script fails, with an error that has a [message]. *)
Definition always_fails {T : Type} (outcomes : nat -> Res T) : Prop :=
  forall i, exists e, outcomes i = Throw e /\ has_message e = true.

(** At most one of the three counters grew, by one. *)
Definition one_counter_moved (m m' : ProcessingMetrics) : Prop :=
  totalDurationMs m' = totalDurationMs m
  /\ ((processed m' = processed m /\ skipped m' = skipped m /\ failed m' = failed m)
      \/ (processed m' = processed m + 1 /\ skipped m' = skipped m /\ failed m' = failed m)
      \/ (processed m' = processed m /\ skipped m' = skipped m + 1 /\ failed m' = failed m)
      \/ (processed m' = processed m /\ skipped m' = skipped m /\ failed m' = failed m + 1)).

(** ** More scenarios *)

Definition no_attempt_config : Retry.PartialRetryConfig :=
  {| Retry.p_maxAttempts := Some 0; Retry.p_baseDelayMs := None;
     Retry.p_maxDelayMs := None; Retry.p_exponentialBase := None;
     Retry.p_jitter := None |}.

Definition test_breaker : Breaker.CircuitBreaker :=
  Breaker.new_CircuitBreaker "test-service" test_breaker_config.

(** A Redis whose reads are refused and whose writes go through. *)
Definition redis_read_down : Redis.RedisClient :=
  {| Redis.redis_get := fun _ => throw (Error "ECONNREFUSED");
     Redis.redis_set := fun _ _ _ _ => mret tt;
     Redis.redis_del := fun _ => mret tt |}.

Definition w_processing : World :=
  {| trace := []; store := {[ shirt_key := lock_entry day shirt_key 500 ]};
     metrics := no_metrics |}.

Definition unnamed_shirt : CanonicalProduct := {| id := Some "p1"%string; name := None |}.

Definition msg_unnamed : Message :=
  {| MessageId := Some "m4"%string; ReceiptHandle := "rh-4";
     Body := JsonObject (Some {| eventId := Some "e1"%string; correlationId := None;
                                 product := Some unnamed_shirt;
                                 metadata := Some {| batchId := Some "b1"%string |} |}) |}.

Definition event_without_metadata : ProductIngestedEvent :=
  {| eventId := Some "e1"%string; correlationId := None; product := Some shirt;
     metadata := None |}.

Definition msg_without_metadata : Message :=
  {| MessageId := Some "m5"%string; ReceiptHandle := "rh-5";
     Body := JsonObject (Some event_without_metadata) |}.

(** * Properties *)

(** ** The backoff calculator *)
Section CalculateDelay.
Import Retry.

(** *** Integers among the doubles *)

Lemma digits2_pos_bounds (p : positive) :
  2 ^ (Zpos (digits2_pos p) - 1) <= Zpos p < 2 ^ Zpos (digits2_pos p).
Proof.
  induction p as [p IH|p IH|]; cbn [digits2_pos].
  - rewrite Pos2Z.inj_succ. replace (Z.succ (Zpos (digits2_pos p)) - 1)
      with (Z.succ (Zpos (digits2_pos p) - 1)) by lia.
    rewrite !Z.pow_succ_r by lia. lia.
  - rewrite Pos2Z.inj_succ. replace (Z.succ (Zpos (digits2_pos p)) - 1)
      with (Z.succ (Zpos (digits2_pos p) - 1)) by lia.
    rewrite !Z.pow_succ_r by lia. lia.
  - simpl. lia.
Qed.

Lemma digits2_pos_unique (p : positive) (d : Z) :
  2 ^ (d - 1) <= Zpos p < 2 ^ d -> Zpos (digits2_pos p) = d.
Proof.
  intros [Hlo Hhi]. pose proof (digits2_pos_bounds p) as [Hlo' Hhi'].
  assert (0 < d).
  { destruct (Z.lt_ge_cases 0 d) as [|Hd]; [assumption|exfalso].
    assert (2 ^ d <= 1); [|lia].
    destruct (Z.eq_dec d 0) as [->|]; [simpl; lia|]. rewrite Z.pow_neg_r by lia. lia. }
  assert (Zpos (digits2_pos p) - 1 < d).
  { apply (Z.pow_lt_mono_r_iff 2); lia. }
  assert (d - 1 < Zpos (digits2_pos p)).
  { apply (Z.pow_lt_mono_r_iff 2); lia. }
  lia.
Qed.

Lemma shl_spec (p : positive) (k : Z) : 0 <= k -> Zpos (shl p k) = Zpos p * 2 ^ k.
Proof.
  intros Hk. destruct k as [|q|q]; [simpl; lia | | lia]. cbn [shl].
  induction q as [|q IH] using Pos.peano_ind.
  - simpl. lia.
  - rewrite Pos.iter_succ, Pos2Z.inj_succ, Z.pow_succ_r by lia.
    rewrite Pos2Z.inj_xO, IH by lia. lia.
Qed.

Lemma digits2_pos_shl (p : positive) (k : Z) :
  0 <= k -> Zpos (digits2_pos (shl p k)) = Zpos (digits2_pos p) + k.
Proof.
  intros Hk. apply digits2_pos_unique. rewrite shl_spec by exact Hk.
  pose proof (digits2_pos_bounds p) as [Hlo Hhi].
  replace (Zpos (digits2_pos p) + k - 1) with (Zpos (digits2_pos p) - 1 + k) by lia.
  rewrite !Z.pow_add_r by lia.
  assert (0 < 2 ^ k) by (apply Z.pow_pos_nonneg; lia).
  split; [apply Z.mul_le_mono_nonneg_r | apply Z.mul_lt_mono_pos_r]; lia.
Qed.

(** Shifting out the zeros that [shl] put in loses nothing. *)
Lemma iter_pos_shr_1_exact (n : positive) :
  forall m : positive,
    SpecFloat.iter_pos shr_1 n {| shr_m := Zpos (Pos.iter xO m n); shr_r := false; shr_s := false |}
    = {| shr_m := Zpos m; shr_r := false; shr_s := false |}.
Proof.
  induction n as [n IH|n IH|]; intros m.
  - cbn [SpecFloat.iter_pos Pos.iter shr_1 orb]. rewrite IH, IH. reflexivity.
  - cbn [SpecFloat.iter_pos Pos.iter]. rewrite IH, IH. reflexivity.
  - reflexivity.
Qed.

(** The binary64 format. *)
Lemma fexp_normal (d : Z) : -1021 <= d -> fexp prec emax d = d - 53.
Proof. intros H. unfold fexp, emin, prec, emax. lia. Qed.

(** A significand of 53 bits that was shifted left by [n] rounds to itself. *)
Lemma binary_round_aux_exact (s : bool) (m : positive) (n e : Z) :
  Zpos (digits2_pos m) = 53 -> 0 <= n -> -1074 <= e <= 971 ->
  binary_round_aux prec emax s (Zpos (shl m n)) (e - n) loc_Exact = S754_finite s m e.
Proof.
  intros Hd Hn He.
  assert (Hstay : shr_fexp prec emax (Zpos m) e loc_Exact
                  = ({| shr_m := Zpos m; shr_r := false; shr_s := false |}, e)).
  { unfold shr_fexp, Zdigits2. rewrite Hd, fexp_normal by lia.
    replace (53 + e - 53 - e) with 0 by lia. reflexivity. }
  unfold binary_round_aux.
  assert (Hfirst : shr_fexp prec emax (Zpos (shl m n)) (e - n) loc_Exact
                   = ({| shr_m := Zpos m; shr_r := false; shr_s := false |}, e)).
  { destruct n as [|q|q]; [| |lia].
    - cbn [shl]. rewrite Z.sub_0_r. exact Hstay.
    - unfold shr_fexp, Zdigits2. rewrite digits2_pos_shl, Hd, fexp_normal by lia.
      replace (53 + Zpos q + (e - Zpos q) - 53 - (e - Zpos q)) with (Zpos q) by lia.
      cbn [shr shr_record_of_loc shl]. rewrite iter_pos_shr_1_exact.
      f_equal. lia. }
  rewrite Hfirst. cbn [shr_m loc_of_shr_record round_nearest_even].
  rewrite Hstay. cbn [shr_m].
  replace (e <=? emax - prec) with true; [reflexivity|].
  symmetry. apply Z.leb_le. unfold emax, prec. lia.
Qed.

Lemma digits_le_53 (p : positive) : Zpos p < 2 ^ 53 -> Zpos (digits2_pos p) <= 53.
Proof.
  intros H. pose proof (digits2_pos_bounds p) as [Hlo _].
  assert (Zpos (digits2_pos p) - 1 < 53); [|lia].
  apply (Z.pow_lt_mono_r_iff 2); lia.
Qed.

Lemma canonical_valid (s : bool) (p : positive) :
  Zpos p < 2 ^ 53 -> valid_binary (double_of_positive s p) = true.
Proof.
  intros H. pose proof (digits_le_53 p H). pose proof (Pos2Z.is_pos (digits2_pos p)).
  unfold double_of_positive, valid_binary, SpecFloat.valid_binary, bounded, canonical_mantissa.
  rewrite digits2_pos_shl, fexp_normal by lia.
  apply andb_true_intro. split; [apply Z.eqb_eq | apply Z.leb_le; unfold emax, prec]; lia.
Qed.

Lemma binary_normalize_canonical (p : positive) :
  Zpos p < 2 ^ 53 ->
  binary_normalize prec emax (Zpos p) 0 false = double_of_positive false p.
Proof.
  intros H. pose proof (digits_le_53 p H) as Hd.
  pose proof (Pos2Z.is_pos (digits2_pos p)).
  unfold binary_normalize, binary_round, double_of_positive.
  rewrite Z.add_0_r, fexp_normal by lia.
  set (d := Zpos (digits2_pos p)) in *.
  assert (Halign : shl_align p 0 (d - 53) = (shl p (53 - d), d - 53)).
  { unfold shl_align. rewrite Z.sub_0_r.
    destruct (d - 53) as [|q|q] eqn:E; [|lia|].
    - replace (53 - d) with 0 by lia. reflexivity.
    - replace (53 - d) with (Zpos q) by lia. reflexivity. }
  rewrite Halign.
  pose proof (binary_round_aux_exact false (shl p (53 - d)) 0 (d - 53)) as Hr.
  cbn [shl] in Hr. rewrite Z.sub_0_r in Hr. apply Hr; [|lia|lia].
  unfold d. rewrite digits2_pos_shl by (fold d; lia). lia.
Qed.

Lemma Prim2SF_number_of_Zpos (p : positive) :
  Zpos p < 2 ^ 53 -> Prim2SF (number_of_Z (Zpos p)) = double_of_positive false p.
Proof.
  intros H. cbn [number_of_Z]. rewrite FloatAxioms.of_uint63_spec, Uint63.of_Z_spec.
  rewrite Z.mod_small.
  - apply binary_normalize_canonical. exact H.
  - split; [lia|]. eapply Z.lt_trans; [exact H|]. reflexivity.
Qed.

Lemma shl_shl (p : positive) (a b : Z) : 0 <= a -> 0 <= b -> shl (shl p a) b = shl p (a + b).
Proof.
  intros Ha Hb. apply Pos2Z.inj. rewrite !shl_spec by lia.
  rewrite Z.pow_add_r by lia. lia.
Qed.

Lemma digits2_pos_mul (a b : positive) :
  Zpos (digits2_pos a) + Zpos (digits2_pos b) - 1 <= Zpos (digits2_pos (a * b)).
Proof.
  pose proof (digits2_pos_bounds a) as [Ha _].
  pose proof (digits2_pos_bounds b) as [Hb _].
  pose proof (digits2_pos_bounds (a * b)) as [_ Hab].
  pose proof (Pos2Z.is_pos (digits2_pos a)). pose proof (Pos2Z.is_pos (digits2_pos b)).
  assert (Zpos (digits2_pos a) - 1 + (Zpos (digits2_pos b) - 1) < Zpos (digits2_pos (a * b)));
    [|lia].
  apply (Z.pow_lt_mono_r_iff 2); [lia|lia|].
  rewrite Z.pow_add_r by lia. rewrite Pos2Z.inj_mul in Hab.
  eapply Z.le_lt_trans; [|exact Hab].
  apply Z.mul_le_mono_nonneg; try lia; apply Z.pow_nonneg; lia.
Qed.

(** The product of two integers is exact when it is below 2^53. *)
Lemma SF64mul_canonical (sa sb : bool) (a b : positive) :
  Zpos (a * b) < 2 ^ 53 ->
  SF64mul (double_of_positive sa a) (double_of_positive sb b) = double_of_positive (xorb sa sb) (a * b).
Proof.
  intros H. pose proof (digits_le_53 _ H) as Hd.
  pose proof (digits2_pos_mul a b) as Hm.
  pose proof (Pos2Z.is_pos (digits2_pos a)). pose proof (Pos2Z.is_pos (digits2_pos b)).
  assert (Zpos (digits2_pos a) <= 53 /\ Zpos (digits2_pos b) <= 53) as [Hda Hdb] by lia.
  unfold SF64mul, double_of_positive. cbn [SFmul].
  set (da := Zpos (digits2_pos a)) in *. set (db := Zpos (digits2_pos b)) in *.
  set (d := Zpos (digits2_pos (a * b))) in *.
  set (n := 53 + d - da - db).
  replace (shl a (53 - da) * shl b (53 - db))%positive with (shl (shl (a * b) (53 - d)) n).
  - replace (da - 53 + (db - 53)) with (d - 53 - n) by (unfold n; lia).
    apply binary_round_aux_exact; [|unfold n; lia|lia].
    rewrite digits2_pos_shl by lia. fold d. lia.
  - apply Pos2Z.inj. rewrite Pos2Z.inj_mul, !shl_spec by (unfold n; lia).
    rewrite Pos2Z.inj_mul.
    replace (Zpos a * Zpos b * 2 ^ (53 - d) * 2 ^ n)
      with (Zpos a * Zpos b * (2 ^ (53 - d) * 2 ^ n)) by ring.
    rewrite <- Z.pow_add_r by (unfold n; lia).
    replace (Zpos a * 2 ^ (53 - da) * (Zpos b * 2 ^ (53 - db)))
      with (Zpos a * Zpos b * (2 ^ (53 - da) * 2 ^ (53 - db))) by ring.
    rewrite <- Z.pow_add_r by lia. f_equal. f_equal. unfold n. lia.
Qed.

Lemma Prim2SF_number_of_Z0 : Prim2SF (number_of_Z 0) = S754_zero false.
Proof. reflexivity. Qed.

Lemma number_of_Z_mul (a b : Z) :
  0 <= a < 2 ^ 53 -> 0 <= b < 2 ^ 53 -> a * b < 2 ^ 53 ->
  (number_of_Z a * number_of_Z b)%float = number_of_Z (a * b).
Proof.
  intros Ha Hb H. apply Prim2SF_inj. rewrite FloatAxioms.mul_spec.
  destruct a as [|a|a]; [|destruct b as [|b|b]|]; try lia.
  - cbn [Z.mul]. rewrite Prim2SF_number_of_Z0.
    destruct b as [|b|b]; [reflexivity| |lia].
    rewrite Prim2SF_number_of_Zpos by lia. reflexivity.
  - rewrite Z.mul_0_r, Prim2SF_number_of_Z0, Prim2SF_number_of_Zpos by lia. reflexivity.
  - change (Zpos a * Zpos b) with (Zpos (a * b)) in *.
    rewrite !Prim2SF_number_of_Zpos by lia.
    apply (SF64mul_canonical false false). exact H.
Qed.

(** Order *)
Lemma SFcompare_canonical (a b : positive) :
  Zpos a < 2 ^ 53 -> Zpos b < 2 ^ 53 ->
  SFcompare (double_of_positive false a) (double_of_positive false b) = Some (Zpos a ?= Zpos b).
Proof.
  intros Ha Hb. pose proof (digits_le_53 _ Ha). pose proof (digits_le_53 _ Hb).
  pose proof (digits2_pos_bounds a) as [Hla Hha].
  pose proof (digits2_pos_bounds b) as [Hlb Hhb].
  unfold double_of_positive. cbn [SFcompare]. f_equal.
  set (da := Zpos (digits2_pos a)) in *. set (db := Zpos (digits2_pos b)) in *.
  destruct (Z.compare_spec (da - 53) (db - 53)) as [E|E|E].
  - replace db with da by lia.
    fold (Pos.compare (shl a (53 - da)) (shl b (53 - da))).
    rewrite Pos2Z.inj_compare, !shl_spec by lia.
    assert (0 < 2 ^ (53 - da)) by (apply Z.pow_pos_nonneg; lia).
    destruct (Z.compare_spec (Zpos a) (Zpos b)) as [E1|E1|E1].
    + rewrite E1. apply Z.compare_refl.
    + apply Z.compare_lt_iff. nia.
    + apply Z.compare_gt_iff. nia.
  - symmetry. apply Z.compare_lt_iff.
    assert (2 ^ da <= 2 ^ (db - 1)) by (apply Z.pow_le_mono_r; lia). lia.
  - symmetry. apply Z.compare_gt_iff.
    assert (2 ^ db <= 2 ^ (da - 1)) by (apply Z.pow_le_mono_r; lia). lia.
Qed.

Lemma number_of_Z_ltb (a b : Z) :
  0 <= a < 2 ^ 53 -> 0 <= b < 2 ^ 53 ->
  (number_of_Z a <? number_of_Z b)%float = (a <? b).
Proof.
  intros Ha Hb. rewrite FloatAxioms.ltb_spec. unfold SFltb.
  destruct a as [|a|a]; [|destruct b as [|b|b]|]; try lia.
  - rewrite Prim2SF_number_of_Z0.
    destruct b as [|b|b]; [reflexivity| |lia].
    rewrite Prim2SF_number_of_Zpos by lia. reflexivity.
  - rewrite Prim2SF_number_of_Z0, Prim2SF_number_of_Zpos by lia. reflexivity.
  - rewrite !Prim2SF_number_of_Zpos, SFcompare_canonical by lia.
    unfold Z.ltb. destruct (Zpos a ?= Zpos b); reflexivity.
Qed.

Lemma number_of_Z_not_nan (a : Z) : 0 <= a < 2 ^ 53 -> is_nan (number_of_Z a) = false.
Proof.
  intros Ha. unfold is_nan. rewrite FloatAxioms.eqb_spec. unfold SFeqb.
  destruct a as [|a|a]; [reflexivity| |lia].
  rewrite Prim2SF_number_of_Zpos, SFcompare_canonical by lia.
  rewrite Z.compare_refl. reflexivity.
Qed.

Lemma Math_min_number_of_Z (a b : Z) :
  0 <= a < 2 ^ 53 -> 0 <= b < 2 ^ 53 ->
  Math_min (number_of_Z a) (number_of_Z b) = number_of_Z (Z.min a b).
Proof.
  intros Ha Hb. unfold Math_min.
  rewrite !number_of_Z_not_nan, !number_of_Z_ltb by lia. cbn [orb].
  destruct (a <? b) eqn:E1; [apply Z.ltb_lt in E1; rewrite Z.min_l by lia; reflexivity|].
  apply Z.ltb_ge in E1.
  destruct (b <? a) eqn:E2; [apply Z.ltb_lt in E2; rewrite Z.min_r by lia; reflexivity|].
  apply Z.ltb_ge in E2. assert (a = b) by lia. subst b. rewrite Z.min_id.
  destruct (get_sign (number_of_Z a)); reflexivity.
Qed.

Lemma Math_round_number_of_Z (a : Z) :
  0 <= a < 2 ^ 53 -> Math_round (number_of_Z a) = number_of_Z a.
Proof.
  intros Ha. unfold Math_round.
  destruct a as [|a|a]; [reflexivity| |lia].
  rewrite Prim2SF_number_of_Zpos by lia. unfold double_of_positive.
  pose proof (digits_le_53 a ltac:(lia)) as Hd.
  pose proof (Pos2Z.is_pos (digits2_pos a)).
  set (d := Zpos (digits2_pos a)) in *.
  destruct (0 <=? d - 53) eqn:E; [reflexivity|]. apply Z.leb_gt in E.
  cbn [signed]. rewrite shl_spec by lia.
  replace (- (d - 53)) with (53 - d) by lia.
  assert (Hpow : 2 ^ (53 - d) = 2 * 2 ^ (53 - d - 1)).
  { rewrite <- Z.pow_succ_r by lia. f_equal. lia. }
  assert (0 < 2 ^ (53 - d - 1)) by (apply Z.pow_pos_nonneg; lia).
  cbv zeta.
  replace ((Zpos a * 2 ^ (53 - d) + 2 ^ (53 - d - 1)) / 2 ^ (53 - d)) with (Zpos a).
  - reflexivity.
  - rewrite Z.add_comm, Z.div_add by lia. rewrite Z.div_small by lia. reflexivity.
Qed.


Lemma Prim2SF_number_of_Zneg (p : positive) :
  Zpos p < 2 ^ 53 -> Prim2SF (number_of_Z (Zneg p)) = double_of_positive true p.
Proof.
  intros H. cbn [number_of_Z]. rewrite FloatAxioms.opp_spec.
  change (of_uint63 (Uint63.of_Z (Zpos p))) with (number_of_Z (Zpos p)).
  rewrite Prim2SF_number_of_Zpos by exact H. reflexivity.
Qed.

Lemma canonical_is_integer (s : bool) (p : positive) (x : float) :
  Zpos p < 2 ^ 53 -> Prim2SF x = double_of_positive s p -> is_integer x = true.
Proof.
  intros H E. unfold is_integer. rewrite E. unfold double_of_positive.
  pose proof (digits_le_53 p H). pose proof (Pos2Z.is_pos (digits2_pos p)).
  destruct (0 <=? Zpos (digits2_pos p) - 53) eqn:E0; [reflexivity|].
  apply Z.leb_gt in E0. apply Z.eqb_eq.
  rewrite shl_spec by lia.
  replace (- (Zpos (digits2_pos p) - 53)) with (53 - Zpos (digits2_pos p)) by lia.
  apply Z.mod_mul. apply Z.pow_nonzero; lia.
Qed.

Lemma number_of_Z_is_integer (k : Z) : - 2 ^ 53 < k < 2 ^ 53 -> is_integer (number_of_Z k) = true.
Proof.
  intros H. destruct k as [|p|p]; [reflexivity| |].
  - eapply canonical_is_integer; [|apply Prim2SF_number_of_Zpos]; lia.
  - eapply canonical_is_integer; [|apply Prim2SF_number_of_Zneg]; lia.
Qed.

Lemma number_of_Z_finite (k : Z) :
  - 2 ^ 53 < k < 2 ^ 53 -> k <> 0 ->
  exists s m e, Prim2SF (number_of_Z k) = S754_finite s m e.
Proof.
  intros H Hk. destruct k as [|p|p]; [congruence| |].
  - rewrite Prim2SF_number_of_Zpos by lia. unfold double_of_positive. eauto.
  - rewrite Prim2SF_number_of_Zneg by lia. unfold double_of_positive. eauto.
Qed.

Lemma valid_mantissa_bound (x : float) (s : bool) (m : positive) (e : Z) :
  Prim2SF x = S754_finite s m e -> Zpos m < 2 ^ 53.
Proof.
  intros E. pose proof (Prim2SF_valid x) as Hv. rewrite E in Hv.
  unfold SpecFloat.valid_binary, bounded, canonical_mantissa in Hv.
  apply andb_prop in Hv as [Hc _]. apply Z.eqb_eq in Hc.
  unfold fexp, emin, prec, emax in Hc.
  pose proof (digits2_pos_bounds m) as [_ Hhi].
  eapply Z.lt_le_trans; [exact Hhi|]. apply Z.pow_le_mono_r; lia.
Qed.

(** [Math.round] returns an integer, or what it was given when that is not
    a finite number. *)
Lemma Math_round_rounded (x : float) : rounded (Math_round x).
Proof.
  unfold rounded, Math_round.
  destruct (Prim2SF x) as [s| s| |s m e] eqn:E; try (rewrite E; exact I).
  destruct (0 <=? e) eqn:E0.
  - rewrite E. unfold is_integer. rewrite E, E0. reflexivity.
  - apply Z.leb_gt in E0. cbv zeta.
    pose proof (valid_mantissa_bound x s m e E) as Hm.
    set (k := (signed s m + 2 ^ (- e - 1)) / 2 ^ (- e)).
    assert (Hk : - 2 ^ 53 < k < 2 ^ 53).
    { assert (Hpow : 2 ^ (- e) = 2 * 2 ^ (- e - 1)).
      { rewrite <- Z.pow_succ_r by lia. f_equal. lia. }
      assert (Hh : 0 < 2 ^ (- e - 1)) by (apply Z.pow_pos_nonneg; lia).
      pose proof (Z.div_mod (signed s m + 2 ^ (- e - 1)) (2 ^ (- e)) ltac:(lia)) as Hdm.
      pose proof (Z.mod_pos_bound (signed s m + 2 ^ (- e - 1)) (2 ^ (- e)) ltac:(lia)) as Hr.
      fold k in Hdm. rewrite Hpow in Hdm, Hr.
      set (h := 2 ^ (- e - 1)) in *. set (r := (signed s m + h) mod (2 * h)) in *.
      change (2 ^ 53) with 9007199254740992 in *.
      assert (Hs : - 9007199254740992 < signed s m < 9007199254740992)
        by (destruct s; cbn [signed]; lia).
      clearbody h r k. clear - Hdm Hr Hh Hs. nia. }
    destruct (k =? 0) eqn:Ek.
    + destruct s; exact I.
    + apply Z.eqb_neq in Ek.
      destruct (number_of_Z_finite k Hk Ek) as (s' & m' & e' & ->).
      apply number_of_Z_is_integer. exact Hk.
Qed.

Lemma has_value_number_of_Z (k : Z) :
  0 <= k < 2 ^ 53 -> has_value (number_of_Z k) (inject_Z k).
Proof.
  intros H. unfold has_value, value_of. destruct k as [|p|p]; [reflexivity| |lia].
  rewrite Prim2SF_number_of_Zpos by lia. unfold double_of_positive. cbn [signed].
  pose proof (digits_le_53 p ltac:(lia)). pose proof (Pos2Z.is_pos (digits2_pos p)).
  set (d := Zpos (digits2_pos p)) in *.
  rewrite shl_spec, inject_Z_mult by lia.
  rewrite (Zpower_Qpower 2 (53 - d)) by lia.
  replace (d - 53) with (- (53 - d)) by lia. rewrite Qpower_opp.
  assert (Hnz : ~ (inject_Z 2 ^ (53 - d) == 0)%Q).
  { apply Qpower_not_0. discriminate. }
  change (inject_Z 2) with 2%Q in *.
  field. exact Hnz.
Qed.

Lemma formula_on_integers (B E M n : Z) :
  0 <= n ->
  (formula (inject_Z B) (inject_Z E) (inject_Z M) n == inject_Z (Z.min (B * E ^ n) M))%Q.
Proof.
  intros Hn. unfold formula.
  rewrite <- Zpower_Qpower by exact Hn. rewrite <- inject_Z_mult.
  destruct (Z.min_spec (B * E ^ n) M) as [[Hlt ->] | [Hle ->]].
  - apply Q.min_l. rewrite <- Zle_Qle. lia.
  - apply Q.min_r. rewrite <- Zle_Qle. lia.
Qed.

(** *** The calculator *)

(** C6, as the code has it.  What is returned went through [Math.round]: it
    is [Math.round(d)] without jitter and [Math.round(d * (0.5 + random))]
    with it, [d] being the double that
    [Math.min(baseDelayMs * Math.pow(exponentialBase, attempt), maxDelayMs)]
    gives, and it has no fraction.  Without jitter it is exactly the formula
    of the design text when [baseDelayMs], the power, their product and
    [maxDelayMs] are integers from 0 to below 2^53 and [Math.pow] returns the
    power exactly. *)
Theorem calculateDelay_rounds_formula (approx : float -> float -> float)
    (random attempt : float) (config : RetryConfig) :
  let d := Math_min (baseDelayMs config * Math_pow approx (exponentialBase config) attempt)%float
                    (maxDelayMs config) in
  calculateDelay approx random attempt config
  = Math_round (if jitter config then (d * (0.5 + random))%float else d)
  /\ rounded (calculateDelay approx random attempt config)
  /\ (forall B E M n : Z,
        jitter config = false ->
        baseDelayMs config = number_of_Z B ->
        exponentialBase config = number_of_Z E ->
        maxDelayMs config = number_of_Z M ->
        attempt = number_of_Z n ->
        0 <= n < 2 ^ 53 -> 0 <= B < 2 ^ 53 -> 0 <= E ^ n < 2 ^ 53 ->
        0 <= M < 2 ^ 53 -> B * E ^ n < 2 ^ 53 ->
        Math_pow approx (exponentialBase config) attempt = number_of_Z (E ^ n) ->
        has_value (calculateDelay approx random attempt config)
                  (formula (inject_Z B) (inject_Z E) (inject_Z M) n)).
Proof.
  intros d. split; [|split].
  - unfold calculateDelay, capped_delay. fold d. destruct (jitter config); reflexivity.
  - unfold calculateDelay. apply Math_round_rounded.
  - intros B E M n Hj HB HE HM Hn Hn0 HBr HPr HMr Hprod Hpow.
    assert (Hexact : calculateDelay approx random attempt config
                     = number_of_Z (Z.min (B * E ^ n) M)).
    { unfold calculateDelay, capped_delay. rewrite Hj, Hpow, HB, HM.
      rewrite number_of_Z_mul by lia.
      assert (0 <= B * E ^ n) by nia.
      rewrite Math_min_number_of_Z by lia.
      apply Math_round_number_of_Z. lia. }
    rewrite Hexact.
    unfold has_value.
    pose proof (has_value_number_of_Z (Z.min (B * E ^ n) M)) as Hv.
    unfold has_value in Hv.
    destruct (value_of (number_of_Z (Z.min (B * E ^ n) M))) as [v|];
      [|apply Hv; nia].
    rewrite Hv by nia. symmetry. apply formula_on_integers. lia.
Qed.

(** C6 as stated fails: with [baseDelay = 1], [exponentialBase = 1.5] and no
    jitter, attempt 1 gives 2 where the formula gives 1.5; so does attempt 0
    with [baseDelay = 1.5], whatever the engine makes of [Math.pow]. *)
Lemma calculateDelay_not_exact :
  (jitter policy_3_2 = false
   /\ has_value (baseDelayMs policy_3_2) 1
   /\ has_value (exponentialBase policy_3_2) (3 # 2)
   /\ has_value (maxDelayMs policy_3_2) 30000
   /\ (formula 1 (3 # 2) 30000 1 == 3 # 2)%Q
   /\ calculateDelay nearest_pow 0 1 policy_3_2 = 2%float
   /\ has_value (calculateDelay nearest_pow 0 1 policy_3_2) 2
   /\ ~ (2 == formula 1 (3 # 2) 30000 1)%Q)
  /\
  (jitter policy_half_ms = false
   /\ has_value (baseDelayMs policy_half_ms) (3 # 2)
   /\ has_value (exponentialBase policy_half_ms) 2
   /\ has_value (maxDelayMs policy_half_ms) 30000
   /\ (formula (3 # 2) 2 30000 0 == 3 # 2)%Q
   /\ (forall approx, calculateDelay approx 0 0 policy_half_ms = 2%float)
   /\ ~ (2 == formula (3 # 2) 2 30000 0)%Q).
Proof.
  split.
  - vm_compute. repeat split; try reflexivity. discriminate.
  - repeat split; try (vm_compute; reflexivity).
    vm_compute. discriminate.
Qed.

Lemma calculateDelay_rounds_formula_witness :
  has_value (calculateDelay nearest_pow 0 2 test_policy) (formula 1000 2 30000 2)
  /\ calculateDelay nearest_pow 0 2 test_policy = 4000%float.
Proof.
  split.
  - apply (proj2 (proj2 (calculateDelay_rounds_formula nearest_pow 0 2 test_policy))
             1000 2 30000 2);
      first [reflexivity | lia | (vm_compute; split; congruence) | (vm_compute; congruence)].
  - rewrite (proj1 (calculateDelay_rounds_formula nearest_pow 0 2 test_policy)).
    reflexivity.
Defined.

End CalculateDelay.

(** ** The in-memory idempotency store *)
Section InMemoryStore.
Import Idempotency.

Lemma InMemory_get_live (now : Z) (key : string) (entry : StoreEntry)
    (s : gmap string StoreEntry) :
  s !! key = Some entry -> now <= expiresAt entry ->
  InMemory_get now key s = (Some (record entry), s).
Proof.
  intros Hs Hlive. unfold InMemory_get. rewrite Hs.
  destruct (expiresAt entry <? now) eqn:E; [lia | reflexivity].
Qed.

Lemma InMemory_get_expired (now : Z) (key : string) (entry : StoreEntry)
    (s : gmap string StoreEntry) :
  s !! key = Some entry -> expiresAt entry < now ->
  InMemory_get now key s = (None, delete key s).
Proof.
  intros Hs Hdead. unfold InMemory_get. rewrite Hs.
  destruct (expiresAt entry <? now) eqn:E; [reflexivity | lia].
Qed.

Lemma InMemory_get_absent (now : Z) (key : string) (s : gmap string StoreEntry) :
  s !! key = None -> InMemory_get now key s = (None, s).
Proof. intros Hs. unfold InMemory_get. rewrite Hs. reflexivity. Qed.

Lemma InMemory_set_lookup (t0 : Z) (key : string) (r : IdempotencyRecord) (ttl : Z)
    (s : gmap string StoreEntry) :
  InMemory_set t0 key r ttl s !! key = Some {| record := r; expiresAt := t0 + ttl |}.
Proof. unfold InMemory_set. apply lookup_insert_eq. Qed.

(** [set] is a full overwrite: nothing of an earlier entry survives. *)
Lemma InMemory_set_overwrites (t0 t1 : Z) (key : string) (r0 r1 : IdempotencyRecord)
    (ttl0 ttl1 : Z) (s : gmap string StoreEntry) :
  InMemory_set t1 key r1 ttl1 (InMemory_set t0 key r0 ttl0 s)
  = InMemory_set t1 key r1 ttl1 s.
Proof. unfold InMemory_set. apply insert_insert_eq. Qed.

(** On the instant the TTL ends the record is still returned. *)
Lemma InMemory_get_at_expiry (t0 : Z) (key : string) (r : IdempotencyRecord) (ttl : Z)
    (s : gmap string StoreEntry) :
  fst (InMemory_get (t0 + ttl) key (InMemory_set t0 key r ttl s)) = Some r.
Proof.
  rewrite (InMemory_get_live _ key _ _ (InMemory_set_lookup t0 key r ttl s)).
  - reflexivity.
  - simpl. lia.
Qed.

(** C7.  A record stored at [t0] with TTL [ttl] is returned by [get] at any
    [now] with [now - t0 < ttl], leaving the map as it is; once more than
    [ttl] has gone by [get] answers absent although the map still holds the
    entry, which that very call then drops. *)
Theorem InMemory_get_respects_ttl (t0 now : Z) (key : string) (r : IdempotencyRecord)
    (ttl : Z) (s : gmap string StoreEntry) :
  let s' := InMemory_set t0 key r ttl s in
  (now - t0 < ttl -> InMemory_get now key s' = (Some r, s'))
  /\ (ttl < now - t0 ->
        is_Some (s' !! key)
        /\ fst (InMemory_get now key s') = None
        /\ snd (InMemory_get now key s') !! key = None).
Proof.
  intros s'. split.
  - intros Hbefore.
    rewrite (InMemory_get_live now key _ s' (InMemory_set_lookup t0 key r ttl s)).
    + reflexivity.
    + simpl. lia.
  - intros Hafter.
    rewrite (InMemory_get_expired now key _ s' (InMemory_set_lookup t0 key r ttl s)).
    + split; [|split].
      * unfold s'. rewrite InMemory_set_lookup. eauto.
      * reflexivity.
      * simpl. apply lookup_delete_eq.
    + simpl. lia.
Qed.

End InMemoryStore.

(** ** The idempotency manager, over the in-memory store *)

Ltac run_M :=
  unfold mbind, M_bind, mret, M_ret, bind, ret, throw, try_catch; simpl.

Lemma set_store_same (w : World) : set_store (store w) w = w.
Proof. destruct w; reflexivity. Qed.

Section Manager.
Import Idempotency.
Context (env : Env) (ttl : Z).

Local Abbreviation manager := (Consumer.IdempotencyService env ttl).

Lemma checkAndLock_existing (key : string) (entry : StoreEntry) (w : World) :
  store w !! key = Some entry -> env_now env (trace w) <= expiresAt entry ->
  checkAndLock env manager key w = (Ok (status (record entry)), w).
Proof.
  intros Hs Hlive. unfold checkAndLock. run_M.
  rewrite (InMemory_get_live _ _ _ _ Hs Hlive). simpl.
  rewrite set_store_same. reflexivity.
Qed.

Lemma checkAndLock_absent (key : string) (w : World) :
  store w !! key = None ->
  checkAndLock env manager key w
  = (Ok NOT_FOUND,
     set_store (<[key := lock_entry ttl key (env_now env (trace w))]> (store w)) w).
Proof.
  intros Hs. unfold checkAndLock. run_M.
  rewrite (InMemory_get_absent _ _ _ Hs). simpl.
  rewrite set_store_same. reflexivity.
Qed.

Lemma checkAndLock_expired (key : string) (entry : StoreEntry) (w : World) :
  store w !! key = Some entry -> expiresAt entry < env_now env (trace w) ->
  checkAndLock env manager key w
  = (Ok NOT_FOUND,
     set_store (<[key := lock_entry ttl key (env_now env (trace w))]> (store w)) w).
Proof.
  intros Hs Hdead. unfold checkAndLock. run_M.
  rewrite (InMemory_get_expired _ _ _ _ Hs Hdead). simpl.
  unfold set_store, InMemory_set. simpl. rewrite insert_delete_eq. reflexivity.
Qed.

Lemma markCompleted_world (key : string) (r : option IdempotencyResult) (w : World) :
  markCompleted env manager key r w
  = (Ok tt,
     set_store (<[key := completed_entry ttl key (env_now env (trace w)) r]> (store w)) w).
Proof. reflexivity. Qed.

Lemma markFailed_world (key : string) (err : string) (w : World) :
  markFailed env manager key err w
  = (Ok tt,
     set_store (<[key := failed_entry ttl key (env_now env (trace w)) err]> (store w)) w).
Proof. reflexivity. Qed.

(** C1.  On a key without record [checkAndLock] stores a PROCESSING record
    and answers NOT_FOUND; on a key with an unexpired record it answers the
    status of that record and changes nothing.  Hence a second call, made
    while the lock is unexpired and the key untouched, answers PROCESSING,
    and a call after [markCompleted] answers COMPLETED. *)
Theorem checkAndLock_contract (key : string) :
  (forall w, store w !! key = None ->
     exists w',
       checkAndLock env manager key w = (Ok NOT_FOUND, w')
       /\ store w' !! key = Some (lock_entry ttl key (env_now env (trace w)))
       /\ (forall other, other <> key -> store w' !! other = store w !! other)
       /\ trace w' = trace w /\ metrics w' = metrics w)
  /\ (forall w entry,
        store w !! key = Some entry -> env_now env (trace w) <= expiresAt entry ->
        checkAndLock env manager key w = (Ok (status (record entry)), w))
  /\ (forall w later,
        store w !! key = None ->
        store later !! key = store (snd (checkAndLock env manager key w)) !! key ->
        env_now env (trace later) <= env_now env (trace w) + ttl ->
        fst (checkAndLock env manager key w) = Ok NOT_FOUND
        /\ fst (checkAndLock env manager key later) = Ok PROCESSING)
  /\ (forall w later r,
        store later !! key = store (snd (markCompleted env manager key r w)) !! key ->
        env_now env (trace later) <= env_now env (trace w) + ttl ->
        fst (checkAndLock env manager key later) = Ok COMPLETED).
Proof.
  repeat split.
  - intros w Hs. eexists. split; [apply checkAndLock_absent; exact Hs|].
    simpl. split; [apply lookup_insert_eq|].
    split; [|split; reflexivity].
    intros other Hne. apply lookup_insert_ne. congruence.
  - intros w entry. apply checkAndLock_existing.
  - rewrite (checkAndLock_absent _ _ H). reflexivity.
  - rewrite (checkAndLock_absent _ _ H) in H0. simpl in H0.
    rewrite lookup_insert_eq in H0.
    rewrite (checkAndLock_existing _ _ _ H0); [reflexivity | simpl; lia].
  - intros w later r Hk Hnow.
    rewrite markCompleted_world in Hk. simpl in Hk.
    rewrite lookup_insert_eq in Hk.
    rewrite (checkAndLock_existing _ _ _ Hk); [reflexivity | simpl; lia].
Qed.

End Manager.

(** ** The retry executor *)
Section RetryExecutor.
Import Retry.
Context (env : Env) {T : Type} (outcomes : nat -> Res T) (fullConfig : RetryConfig)
        (logger : option Logger).

Lemma invocations_log (ev : Event) (w : World) :
  invocations (trace (log ev w))
  = (invocations (trace w) + if is_invoke ev then 1 else 0)%nat.
Proof.
  unfold invocations, log. simpl. rewrite List.filter_app, length_app. simpl.
  destruct (is_invoke ev); reflexivity.
Qed.

Lemma sleeps_log (ev : Event) (w : World) :
  sleeps (trace (log ev w)) = (sleeps (trace w) + if is_sleep ev then 1 else 0)%nat.
Proof.
  unfold sleeps, log. simpl. rewrite List.filter_app, length_app. simpl.
  destruct (is_sleep ev); reflexivity.
Qed.

Lemma last_log (ev : Event) (w : World) : last (trace (log ev w)) = Some ev.
Proof. unfold log. simpl. apply last_snoc. Qed.

Lemma log_line_loggable (e : Exn) (w : World) :
  loggable logger e -> log_line logger e w = (Ok tt, w).
Proof.
  unfold loggable, log_line. intros [-> | Hmsg]; [reflexivity|].
  destruct logger; [|reflexivity].
  destruct (message_of e); [reflexivity | congruence].
Qed.

(** One failed attempt whose log line goes through. *)
Lemma retry_loop_failed_attempt (remaining : nat) (attempt : Z) (lastError e : Exn)
    (w : World) :
  outcomes (invocations (trace w)) = Throw e ->
  loggable logger e ->
  exists w2,
    retry_loop env (scripted outcomes) fullConfig logger (S remaining) attempt lastError w
    = retry_loop env (scripted outcomes) fullConfig logger remaining (attempt + 1) e w2
    /\ invocations (trace w2) = S (invocations (trace w))
    /\ sleeps (trace w2)
       = (sleeps (trace w) + (if (attempt <? maxAttempts fullConfig - 1)%Z then 1 else 0))%nat
    /\ ((attempt <? maxAttempts fullConfig - 1) = false -> w2 = log EvInvoke w)
    /\ store w2 = store w /\ metrics w2 = metrics w.
Proof.
  intros He Hlog. simpl. unfold scripted at 1. rewrite He.
  destruct (attempt <? maxAttempts fullConfig - 1) eqn:E.
  - unfold mbind, M_bind, bind. rewrite (log_line_loggable e _ Hlog). simpl.
    eexists. split; [reflexivity|].
    rewrite !invocations_log, !sleeps_log. simpl.
    repeat split; lia || discriminate.
  - rewrite (log_line_loggable e _ Hlog).
    eexists. split; [reflexivity|].
    rewrite !invocations_log, !sleeps_log. simpl.
    repeat split; lia.
Qed.

(** [j] failures, then a success, inside the attempts that remain. *)
Lemma retry_loop_success (j : nat) :
  forall (remaining : nat) (attempt : Z) (lastError : Exn) (w : World) (v : T),
    (j < remaining)%nat ->
    attempt + Z.of_nat remaining = maxAttempts fullConfig ->
    (forall i, (i < j)%nat ->
       exists e, outcomes (invocations (trace w) + i) = Throw e /\ loggable logger e) ->
    outcomes (invocations (trace w) + j) = Ok v ->
    exists w',
      retry_loop env (scripted outcomes) fullConfig logger remaining attempt lastError w
      = (Ok v, w')
      /\ invocations (trace w') = (invocations (trace w) + j + 1)%nat
      /\ sleeps (trace w') = (sleeps (trace w) + j)%nat
      /\ last (trace w') = Some EvInvoke
      /\ store w' = store w /\ metrics w' = metrics w.
Proof.
  induction j as [|j IH]; intros remaining attempt lastError w v Hlt Hrem Hfail Hok;
    (destruct remaining as [|remaining]; [lia|]).
  - simpl. rewrite Nat.add_0_r in Hok. rewrite Hok. eexists. split; [reflexivity|].
    rewrite invocations_log, sleeps_log, last_log. simpl.
    repeat split; lia.
  - destruct (Hfail 0%nat ltac:(lia)) as (e & He & Hlog). rewrite Nat.add_0_r in He.
    destruct (retry_loop_failed_attempt remaining attempt lastError e w He Hlog)
      as (w2 & Hstep & Hinv & Hsl & _ & Hst2 & Hm2).
    destruct (attempt <? maxAttempts fullConfig - 1) eqn:E; [|lia].
    destruct (IH remaining (attempt + 1) e w2 v) as (w' & Hrun & Hi & Hs & Hl & Hst & Hm).
    + lia.
    + lia.
    + intros i Hi. rewrite Hinv.
      replace (S (invocations (trace w)) + i)%nat
        with (invocations (trace w) + S i)%nat by lia.
      apply Hfail. lia.
    + rewrite Hinv. rewrite <- Hok. f_equal. lia.
    + exists w'. rewrite Hstep. split; [exact Hrun|].
      rewrite Hi, Hs, Hl, Hst, Hm, Hinv, Hsl, Hst2, Hm2.
      repeat split; lia.
Qed.

(** Every attempt that remains fails. *)
Lemma retry_loop_exhausted (remaining : nat) :
  forall (attempt : Z) (lastError : Exn) (w : World) (e : Exn),
    attempt + Z.of_nat (S remaining) = maxAttempts fullConfig ->
    (forall i, (i < remaining)%nat ->
       exists e', outcomes (invocations (trace w) + i) = Throw e' /\ loggable logger e') ->
    outcomes (invocations (trace w) + remaining) = Throw e ->
    loggable logger e ->
    exists w',
      retry_loop env (scripted outcomes) fullConfig logger (S remaining) attempt lastError w
      = (Throw e, w')
      /\ invocations (trace w') = (invocations (trace w) + S remaining)%nat
      /\ sleeps (trace w') = (sleeps (trace w) + remaining)%nat
      /\ last (trace w') = Some EvInvoke
      /\ store w' = store w /\ metrics w' = metrics w.
Proof.
  induction remaining as [|remaining IH];
    intros attempt lastError w e Hrem Hfail Hlast Hlogl.
  - rewrite Nat.add_0_r in Hlast.
    destruct (retry_loop_failed_attempt 0 attempt lastError e w Hlast Hlogl)
      as (w2 & Hstep & Hinv & Hsl & Hw2 & Hst2 & Hm2).
    destruct (attempt <? maxAttempts fullConfig - 1) eqn:E; [lia|].
    rewrite (Hw2 eq_refl) in *.
    exists (log EvInvoke w). rewrite Hstep. split; [reflexivity|].
    rewrite last_log, Hinv, Hsl. repeat split; lia.
  - destruct (Hfail 0%nat ltac:(lia)) as (e0 & He0 & Hlog0). rewrite Nat.add_0_r in He0.
    destruct (retry_loop_failed_attempt (S remaining) attempt lastError e0 w He0 Hlog0)
      as (w2 & Hstep & Hinv & Hsl & _ & Hst2 & Hm2).
    destruct (attempt <? maxAttempts fullConfig - 1) eqn:E; [|lia].
    destruct (IH (attempt + 1) e0 w2 e) as (w' & Hrun & Hi & Hs & Hl & Hst & Hm).
    + lia.
    + intros i Hi. rewrite Hinv.
      replace (S (invocations (trace w)) + i)%nat
        with (invocations (trace w) + S i)%nat by lia.
      apply Hfail. lia.
    + rewrite Hinv. rewrite <- Hlast. f_equal. lia.
    + exact Hlogl.
    + exists w'. rewrite Hstep. split; [exact Hrun|].
      rewrite Hi, Hs, Hl, Hst, Hm, Hinv, Hsl, Hst2, Hm2.
      repeat split; lia.
Qed.

End RetryExecutor.

(** C5.  The operation is a closure that settles by a script, as in the
    tests; [requested] is the [maxAttempts] of the caller, 3 when it gives
    none.  With [requested >= 1] and failures whose log line can be written
    (no logger, or errors that have a [message]): when the first [k - 1]
    calls of the operation fail and call [k <= requested] succeeds,
    [retryWithBackoff] returns that value after exactly [k] calls; when all
    [requested] calls fail it throws the very error of the last call after
    exactly [requested] calls.  Either way it slept once between two calls,
    and the last thing it did was a call, not a sleep. *)
Theorem retryWithBackoff_contract (env : Env) {T : Type} (outcomes : nat -> Res T)
    (config : Retry.PartialRetryConfig) (logger : option Logger) (w : World) (k : nat) :
  let requested := default 3 (Retry.p_maxAttempts config) in
  let n0 := invocations (trace w) in
  1 <= requested ->
  (1 <= k)%nat -> Z.of_nat k <= requested ->
  (forall i, (i < k - 1)%nat ->
     exists e, outcomes (n0 + i)%nat = Throw e /\ loggable logger e) ->
  (forall v, outcomes (n0 + (k - 1))%nat = Ok v ->
     exists w',
       Retry.retryWithBackoff env (scripted outcomes) config logger w = (Ok v, w')
       /\ invocations (trace w') = (n0 + k)%nat
       /\ sleeps (trace w') = (sleeps (trace w) + (k - 1))%nat
       /\ last (trace w') = Some EvInvoke)
  /\
  (forall e, Z.of_nat k = requested ->
     outcomes (n0 + (k - 1))%nat = Throw e -> loggable logger e ->
     exists w',
       Retry.retryWithBackoff env (scripted outcomes) config logger w = (Throw e, w')
       /\ invocations (trace w') = (n0 + k)%nat
       /\ sleeps (trace w') = (sleeps (trace w) + (k - 1))%nat
       /\ last (trace w') = Some EvInvoke).
Proof.
  intros requested n0 Hmax Hk Hle Hfail.
  set (fullConfig := Retry.spread Retry.DEFAULT_CONFIG config).
  assert (Hreq : Retry.maxAttempts fullConfig = requested)
    by (unfold fullConfig, requested; destruct config as [[m|] ? ? ? ?]; reflexivity).
  split.
  - intros v Hok.
    destruct (retry_loop_success env outcomes fullConfig logger (k - 1)
                (Z.to_nat (Retry.maxAttempts fullConfig)) 0 Undefined w v)
      as (w' & Hrun & Hi & Hs & Hl & _); [lia | lia | exact Hfail | exact Hok |].
    exists w'. split; [exact Hrun|]. fold n0 in Hi.
    repeat split; [lia | exact Hs | exact Hl].
  - intros e Hall Hlast Hlog.
    pose proof (retry_loop_exhausted env outcomes fullConfig logger (k - 1) 0 Undefined w e)
      as Hex.
    replace (S (k - 1)) with (Z.to_nat (Retry.maxAttempts fullConfig)) in Hex by lia.
    destruct Hex as (w' & Hrun & Hi & Hs & Hl & _);
      [lia | exact Hfail | exact Hlast | exact Hlog |].
    exists w'. split; [exact Hrun|]. fold n0 in Hi.
    repeat split; [lia | exact Hs | exact Hl].
Qed.

(** ** The circuit breaker *)
Section CircuitBreakerFacts.
Import Breaker.
Context (env : Env).

(** C3.  An OPEN breaker whose last failure is less than [resetTimeout] ago
    makes [execute] throw the breaker-open exception; the breaker object and
    the world come back as they were, whatever the operation is: it was not
    called, and nothing was counted.  [t] is a reading of the clock, which
    is never 0. *)
Theorem execute_fails_fast {T : Type} (operation : Operation T)
    (cb : CircuitBreaker) (w : World) (t : Z) :
  state cb = OPEN ->
  lastFailureTime cb = Some t -> t <> 0 ->
  env_now env (trace w) - t < resetTimeout (config cb) ->
  execute env operation cb w
  = (Throw (CircuitBreakerOpenException (serviceName cb)), cb, w)
  /\ failureCount (snd (fst (execute env operation cb w))) = failureCount cb
  /\ successCount (snd (fst (execute env operation cb w))) = successCount cb
  /\ lastFailureTime (snd (fst (execute env operation cb w))) = lastFailureTime cb
  /\ invocations (trace (snd (execute env operation cb w))) = invocations (trace w).
Proof.
  intros Hopen Hlast Ht Helapsed.
  assert (E : execute env operation cb w
              = (Throw (CircuitBreakerOpenException (serviceName cb)), cb, w)).
  { unfold execute, isOpen, shouldAttemptReset. rewrite Hopen, Hlast.
    destruct (t =? 0) eqn:E0; [lia|].
    destruct (resetTimeout (config cb) <=? env_now env (trace w) - t) eqn:E1; [lia|].
    reflexivity. }
  rewrite E. simpl. repeat split; reflexivity.
Qed.

(** Once [resetTimeout] has gone by, the same call moves the breaker to
    HALF_OPEN first and then runs the operation. *)
Lemma execute_trial {T : Type} (operation : Operation T)
    (cb : CircuitBreaker) (w : World) (t : Z) :
  state cb = OPEN ->
  lastFailureTime cb = Some t ->
  resetTimeout (config cb) <= env_now env (trace w) - t ->
  execute env operation cb w
  = execute env operation (transitionTo HALF_OPEN cb) w.
Proof.
  intros Hopen Hlast Helapsed.
  unfold execute, isOpen at 1, shouldAttemptReset. rewrite Hopen, Hlast.
  destruct (t =? 0); [reflexivity|].
  destruct (resetTimeout (config cb) <=? env_now env (trace w) - t) eqn:E1; [|lia].
  reflexivity.
Qed.

Context (cfg : CircuitBreakerConfig).

Hypothesis clock_nonzero : forall tr, env_now env tr <> 0.

Ltac agree_tac :=
  constructor; simpl; intros; try discriminate; try reflexivity;
  repeat split; auto; try lia.

Lemma call_agrees (cb : CircuitBreaker) (w : World) (m : Machine) (c : Call) :
  printable (outcome c) = true ->
  agrees cfg cb w m ->
  agrees cfg (fst (call env (cb, w) c)) (snd (call env (cb, w) c))
         (machine_step env cfg m c).
Proof.
  intros Hprint [Hst Hcfg Htr Hclosed Hhalf Hopen].
  destruct c as [idle o]. destruct cb as [st fc sc lft name cfg']. simpl in *.
  subst cfg'. unfold machine_step, call. simpl. rewrite <- Hst, <- Htr. clear Hst Htr.
  assert (Hmsg : forall e, o = Rejected e -> exists msg, message_of e = Some msg).
  { intros e ->. unfold printable, has_message in Hprint.
    destruct (message_of e); [eauto | discriminate]. }
  destruct st.
  - (* CLOSED *)
    rewrite (Hclosed eq_refl). clear Hclosed Hhalf Hopen.
    unfold execute, onFailure, onSuccess, machine_trial; simpl.
    replace (consecutive false (m_history m) + 1)
      with (1 + consecutive false (m_history m)) by lia.
    destruct o as [r|e|]; simpl;
      try (destruct (Hmsg e eq_refl) as [msg ->]);
      try destruct (failureThreshold cfg <=? 1 + consecutive false (m_history m));
      simpl; agree_tac.
  - (* OPEN *)
    destruct (Hopen eq_refl) as (Hl & Hnz & Hc). subst lft. clear Hclosed Hhalf Hopen.
    unfold execute, isOpen, shouldAttemptReset; simpl.
    destruct (m_lastFailure m =? 0) eqn:E0; [lia|].
    destruct (resetTimeout cfg <=? env_now env (trace w ++ [EvSleep idle]) - m_lastFailure m);
      simpl; [|agree_tac].
    unfold onFailure, onSuccess, machine_trial; simpl. rewrite Hc.
    destruct o as [r|e|]; simpl;
      try (destruct (Hmsg e eq_refl) as [msg ->]);
      try (replace (0 + 1) with (1 + 0) by lia;
           destruct (successThreshold cfg <=? 1 + 0));
      simpl; agree_tac.
  - (* HALF_OPEN *)
    rewrite (Hhalf eq_refl). clear Hclosed Hhalf Hopen.
    unfold execute, onFailure, onSuccess, machine_trial; simpl.
    replace (consecutive true (m_history m) + 1)
      with (1 + consecutive true (m_history m)) by lia.
    destruct o as [r|e|]; simpl;
      try (destruct (Hmsg e eq_refl) as [msg ->]);
      try destruct (successThreshold cfg <=? 1 + consecutive true (m_history m));
      simpl; agree_tac.
Qed.

Lemma run_agrees (calls : list Call) :
  Forall (fun c => printable (outcome c) = true) calls ->
  forall (cb : CircuitBreaker) (w : World) (m : Machine),
    agrees cfg cb w m ->
    agrees cfg (fst (run env calls (cb, w))) (snd (run env calls (cb, w)))
           (machine_run env cfg calls m).
Proof.
  induction 1 as [|c calls Hc _ IH]; intros cb w m Hag; [exact Hag|].
  change (run env (c :: calls) (cb, w)) with (run env calls (call env (cb, w) c)).
  change (machine_run env cfg (c :: calls) m)
    with (machine_run env cfg calls (machine_step env cfg m c)).
  pose proof (call_agrees cb w m c Hc Hag) as Hstep.
  destruct (call env (cb, w) c) as [cb1 w1]. apply IH. exact Hstep.
Qed.

End CircuitBreakerFacts.

(** C4.  Started CLOSED with the thresholds of the caller (those of the
    code where it gives none: 5 failures, 2 successes, 60000 ms) and driven
    by any sequence of calls that succeed, time out or are rejected with an
    error that has a [message], the breaker is in the state of the machine
    of the design text after every call, and it lets through the same calls:
    CLOSED to OPEN when the consecutive failures reach [failureThreshold],
    OPEN to HALF_OPEN at call time once [resetTimeout] has gone by since the
    last failure and before the trial runs, HALF_OPEN to CLOSED on
    [successThreshold] consecutive successes, HALF_OPEN to OPEN on one
    failure. *)
Theorem breaker_follows_machine (env : Env) (serviceName : string)
    (config : Breaker.PartialCircuitBreakerConfig) (calls : list Breaker.Call) (w : World) :
  (forall tr, env_now env tr <> 0) ->
  Forall (fun c => printable (Breaker.outcome c) = true) calls ->
  let cfg := {| Breaker.failureThreshold := default 5 (Breaker.p_failureThreshold config);
                Breaker.successThreshold := default 2 (Breaker.p_successThreshold config);
                Breaker.timeout := default 30000 (Breaker.p_timeout config);
                Breaker.resetTimeout := default 60000 (Breaker.p_resetTimeout config) |} in
  let cb0 := Breaker.new_CircuitBreaker serviceName config in
  let m0 := {| Breaker.m_state := Breaker.CLOSED; Breaker.m_history := [];
               Breaker.m_lastFailure := 0; Breaker.m_trace := trace w |} in
  let m := Breaker.machine_run env cfg calls m0 in
  Breaker.state (fst (Breaker.run env calls (cb0, w))) = Breaker.m_state m
  /\ trace (snd (Breaker.run env calls (cb0, w))) = Breaker.m_trace m.
Proof.
  intros Hclock Hprint cfg cb0 m0 m.
  assert (H0 : agrees cfg cb0 w m0).
  { constructor; simpl; intros; try discriminate; reflexivity. }
  destruct (run_agrees env cfg Hclock calls Hprint cb0 w m0 H0)
    as [Hst _ Htr _ _ _].
  split; assumption.
Qed.

(** ** The queue consumer *)
Section ConsumerFacts.
Import Idempotency Consumer.
Context (env : Env).

Lemma acknowledged_app (h : string) (tr1 tr2 : list Event) :
  acknowledged h (tr1 ++ tr2) = acknowledged h tr1 || acknowledged h tr2.
Proof. unfold acknowledged. apply existsb_app. Qed.

Lemma delete_loop_traffic (h : string) (cfg : Retry.RetryConfig)
    (logger : option Logger) (remaining : nat) :
  forall (attempt : Z) (lastError : Exn) (w : World),
    exists new,
      delete_traffic h
        (fst (Retry.retry_loop env (send_DeleteMessageCommand env h) cfg logger
                remaining attempt lastError w))
        w
        (snd (Retry.retry_loop env (send_DeleteMessageCommand env h) cfg logger
                remaining attempt lastError w))
        new
      /\ (remaining <> O -> exists accepted rest, new = EvSqsDelete h accepted :: rest).
Proof.
  induction remaining as [|remaining IH]; intros attempt lastError w; simpl.
  - exists []. split; [|congruence].
    unfold delete_traffic. simpl. rewrite app_nil_r. repeat split; constructor.
  - destruct (env_sqs_delete env (trace w) h) as [[]|e] eqn:E; simpl.
    + exists [EvSqsDelete h true]. split; [|eauto].
      unfold delete_traffic. simpl. rewrite String.eqb_refl.
      repeat split. constructor; [|constructor]. simpl. rewrite String.eqb_refl. reflexivity.
    + set (w1 := log (EvSqsDelete h false) w).
      assert (Hline : (exists thrown, Retry.log_line logger e w1 = (Throw thrown, w1))
                      \/ Retry.log_line logger e w1 = (Ok tt, w1)).
      { unfold Retry.log_line. destruct logger; [|right; reflexivity].
        unfold mbind, M_bind, bind, property_of.
        destruct (message_of e); [right; reflexivity | left; eexists; reflexivity]. }
      set (catch_block := if attempt <? Retry.maxAttempts cfg - 1 then _ else _).
      assert (Hcatch :
        (exists thrown, catch_block w1 = (Throw thrown, w1))
        \/ exists w2 pad,
             catch_block w1 = (Ok tt, w2)
             /\ trace w2 = trace w ++ EvSqsDelete h false :: pad
             /\ store w2 = store w /\ metrics w2 = metrics w
             /\ Forall (fun ev => is_sleep ev = true) pad).
      { unfold catch_block. destruct Hline as [[thrown Hthrown]|Hok].
        - left. exists thrown.
          destruct (attempt <? Retry.maxAttempts cfg - 1); [|exact Hthrown].
          unfold mbind, M_bind, bind. rewrite Hthrown. reflexivity.
        - right. destruct (attempt <? Retry.maxAttempts cfg - 1).
          + unfold mbind, M_bind, bind. rewrite Hok. simpl.
            eexists _, [_]. split; [reflexivity|]. simpl. rewrite <- app_assoc. simpl.
            repeat split. constructor; [reflexivity|constructor].
          + exists w1, []. split; [exact Hok|]. repeat split. constructor. }
      destruct Hcatch as [[thrown Hthrown] | (w2 & pad & Hrun & Htr & Hst & Hm & Hpad)].
      * rewrite Hthrown. simpl. exists [EvSqsDelete h false]. split; [|eauto].
        unfold delete_traffic. simpl. repeat split.
        constructor; [simpl; rewrite String.eqb_refl; reflexivity|constructor].
      * rewrite Hrun.
        destruct (IH (attempt + 1) e w2) as (new & (Htr' & Hst' & Hm' & Hall & Hack) & _).
        exists (EvSqsDelete h false :: pad ++ new). split; [|eauto].
        unfold delete_traffic. rewrite Htr', Hst', Hm', Htr, Hst, Hm, Hack.
        rewrite <- app_assoc. simpl. repeat split.
        -- constructor; [simpl; rewrite String.eqb_refl; reflexivity|].
           apply Forall_app. split; [|exact Hall].
           eapply Forall_impl; [exact Hpad|]. intros ev Hev. simpl in *. rewrite Hev.
           reflexivity.
        -- rewrite acknowledged_app.
           assert (Hp : acknowledged h pad = false).
           { clear - Hpad. induction Hpad as [|ev pad Hev _ IHp]; [reflexivity|].
             simpl. destruct ev; try discriminate. exact IHp. }
           rewrite Hp. reflexivity.
Qed.

Lemma deleteMessage_traffic (h : string) (w : World) :
  exists accepted rest,
    delete_traffic h (fst (deleteMessage env h w)) w (snd (deleteMessage env h w))
                   (EvSqsDelete h accepted :: rest).
Proof.
  destruct (delete_loop_traffic h
              (Retry.spread Retry.DEFAULT_CONFIG
                 {| Retry.p_maxAttempts := Some 3; Retry.p_baseDelayMs := Some 500%float;
                    Retry.p_maxDelayMs := None; Retry.p_exponentialBase := None;
                    Retry.p_jitter := None |})
              (Some SqsService_logger)
              3%nat 0 Undefined w) as (new & Htraffic & Hhead).
  destruct (Hhead ltac:(discriminate)) as (accepted & rest & ->).
  exists accepted, rest. exact Htraffic.
Qed.

Lemma delete_traffic_not_downstream (h : string) (new : list Event) :
  Forall (fun ev => is_sleep ev || is_delete_of h ev = true) new ->
  downstream_calls new = [].
Proof.
  induction 1 as [|ev new Hev _ IH]; [reflexivity|].
  unfold downstream_calls in *. simpl. rewrite IH.
  destruct ev; simpl in *; try discriminate; reflexivity.
Qed.

Lemma rethrow_world (message : Message) (e : Exn) (w : World) :
  snd (rethrow_as_SqsException message e w) = w
  /\ is_Ok (fst (rethrow_as_SqsException message e w)) = false
  /\ (forall msg, message_of e = Some msg ->
       fst (rethrow_as_SqsException message e w)
       = Throw (SqsException ("Message processing failed: " +:+ msg)%string
                             "processMessage" (MessageId message) e)).
Proof.
  unfold rethrow_as_SqsException. run_M.
  destruct (message_of e) as [msg|]; simpl; repeat split; congruence.
Qed.

Lemma is_Ok_unit (r : Res unit) : is_Ok r = true -> r = Ok tt.
Proof. destruct r as [[]|e]; [reflexivity | discriminate]. Qed.

Local Opaque deleteMessage.

Context (ttl : Z).
Local Abbreviation manager := (IdempotencyService env ttl).

(** C2.  A message whose key has an unexpired COMPLETED record: the first
    thing sent is the delete of its receipt handle, nothing goes downstream,
    [skipped] grows by one, the other counters and the store stay as they
    are; the call returns normally exactly when the queue accepted the
    delete. *)
Theorem completed_duplicate_is_skipped (message : Message)
    (eventDetail : ProductIngestedEvent) (p : CanonicalProduct)
    (entry : StoreEntry) (w : World) :
  Body message = JsonObject (Some eventDetail) ->
  product eventDetail = Some p ->
  store w !! generateKey (id p) (eventId eventDetail) = Some entry ->
  status (record entry) = COMPLETED ->
  env_now env (trace w) <= expiresAt entry ->
  let run := processMessageWithRetry env manager message w in
  exists accepted rest,
    let sent := EvSqsDelete (ReceiptHandle message) accepted :: rest in
    trace (snd run) = trace w ++ sent
    /\ downstream_calls sent = []
    /\ is_Ok (fst run) = acknowledged (ReceiptHandle message) sent
    /\ skipped (metrics (snd run)) = skipped (metrics w) + 1
    /\ processed (metrics (snd run)) = processed (metrics w)
    /\ failed (metrics (snd run)) = failed (metrics w)
    /\ store (snd run) = store w.
Proof.
  intros Hbody Hprod Hentry Hstatus Hlive run.
  unfold run, processMessageWithRetry. run_M. rewrite Hbody. simpl. rewrite Hprod.
  unfold service_checkAndLock.
  rewrite (checkAndLock_existing env ttl _ _ _ Hentry Hlive). rewrite Hstatus. simpl.
  unfold M_bind, bind. simpl.
  match goal with |- context [deleteMessage env ?h ?w0] =>
    destruct (deleteMessage_traffic (ReceiptHandle message) w0)
      as (accepted & rest & Htr & Hst & Hm & Hall & Hack);
    destruct (deleteMessage env h w0) as [r w'] end.
  simpl in *. exists accepted, rest.
  assert (Hdown := delete_traffic_not_downstream _ _ Hall).
  destruct r as [[]|e]; simpl.
  - rewrite Htr, Hst, Hm. simpl. repeat split; auto.
  - destruct (rethrow_world message e w') as (Hw & Hok & _).
    destruct (rethrow_as_SqsException message e w') as [r2 w2]. simpl in *. subst w2.
    rewrite Htr, Hst, Hm, Hok. simpl. repeat split; auto.
Qed.


Ltac step_delete :=
  match goal with
  | |- context [deleteMessage env ?h ?w0] =>
      let r := fresh "r" in
      let w3 := fresh "w3" in
      destruct (deleteMessage_traffic h w0)
        as (accepted & rest & Htr & Hst & Hm & Hall & Hack);
      destruct (deleteMessage env h w0) as [r w3];
      pose proof (delete_traffic_not_downstream h _ Hall) as Hdown;
      simpl in Htr, Hst, Hm, Hack; destruct r as [[]|?]; simpl
  end.




Lemma process_and_mark_downstream_fails (message : Message) (p : CanonicalProduct)
    (ed : ProductIngestedEvent) (cid : option string) (n : LocalizedString)
    (e : Exn) (msg : string) (w : World) :
  name p = Some n ->
  env_pimcore_upsert env (trace w) p = Throw e ->
  message_of e = Some msg ->
  process_and_mark env manager message p ed cid w
  = (Throw e, world_after_failure env ttl (generateKey (id p) (eventId ed)) (id p) msg w).
Proof.
  intros Hname Hup Hmsg.
  unfold process_and_mark, processProduct, service_markCompleted, service_markFailed.
  run_M. rewrite Hname. simpl. rewrite Hup. simpl. rewrite Hmsg. reflexivity.
Qed.

Lemma process_and_mark_downstream_succeeds (message : Message) (p : CanonicalProduct)
    (ed : ProductIngestedEvent) (cid : option string) (n : LocalizedString)
    (md : EventMetadata) (resp : PimcoreProductResponse) (w : World) :
  name p = Some n -> metadata ed = Some md ->
  env_pimcore_upsert env (trace w) p = Ok resp ->
  let w2 := world_after_success env ttl (generateKey (id p) (eventId ed)) (id p) resp w in
  exists accepted rest,
    let sent := EvSqsDelete (ReceiptHandle message) accepted :: rest in
    trace (snd (process_and_mark env manager message p ed cid w)) = trace w2 ++ sent
    /\ downstream_calls sent = []
    /\ (acknowledged (ReceiptHandle message) sent = true ->
        fst (process_and_mark env manager message p ed cid w) = Ok tt
        /\ store (snd (process_and_mark env manager message p ed cid w)) = store w2
        /\ metrics (snd (process_and_mark env manager message p ed cid w))
           = metrics (snd (incr_processed w))).
Proof.
  intros Hname Hmd Hup w2.
  unfold process_and_mark, processProduct, service_markCompleted, service_markFailed.
  run_M. rewrite Hname. simpl. rewrite Hup. simpl. rewrite Hmd. simpl.
  step_delete.
  - exists accepted, rest. split; [exact Htr|].
    split; [exact Hdown|].
    intros _. rewrite Hst, Hm. auto.
  - exists accepted, rest. split.
    + destruct (message_of e); simpl; exact Htr.
    + split; [exact Hdown|].
      intros Hyes. simpl in Hyes. rewrite <- Hack in Hyes. discriminate.
Qed.

Lemma checkAndLock_proceeds (key : string) (w : World) :
  proceeds_to_processing (env_now env (trace w)) (store w !! key) ->
  exists st w1,
    checkAndLock env manager key w = (Ok st, w1)
    /\ isProcessed st = false /\ isProcessing st = false
    /\ trace w1 = trace w /\ metrics w1 = metrics w
    /\ (store w1 = store w
        \/ store w1 = <[key := lock_entry ttl key (env_now env (trace w))]> (store w)).
Proof.
  unfold proceeds_to_processing. destruct (store w !! key) as [e|] eqn:E.
  - intros [Hdead | (Hlive & Hc & Hp)].
    + rewrite (checkAndLock_expired env ttl _ _ _ E Hdead).
      eexists _, _. split; [reflexivity|]. simpl. auto 10.
    + rewrite (checkAndLock_existing env ttl _ _ _ E Hlive).
      eexists _, _. split; [reflexivity|].
      destruct (status (record e)); simpl; try congruence; auto 10.
  - intros _. rewrite (checkAndLock_absent env ttl _ _ E).
    eexists _, _. split; [reflexivity|]. simpl. auto 10.
Qed.

Lemma processMessageWithRetry_processing (message : Message)
    (ed : ProductIngestedEvent) (p : CanonicalProduct) (st : IdempotencyStatus)
    (w w1 : World) :
  Body message = JsonObject (Some ed) -> product ed = Some p ->
  checkAndLock env manager (generateKey (id p) (eventId ed)) w = (Ok st, w1) ->
  isProcessed st = false -> isProcessing st = false ->
  processMessageWithRetry env manager message w
  = try_catch (process_and_mark env manager message p ed
                 (or_else (correlationId ed) (eventId ed)))
              (rethrow_as_SqsException message) w1.
Proof.
  intros Hbody Hprod Hlock Hp1 Hp2.
  unfold processMessageWithRetry. unfold try_catch at 1. run_M.
  rewrite Hbody. simpl. rewrite Hprod. unfold service_checkAndLock. rewrite Hlock.
  rewrite Hp1, Hp2. reflexivity.
Qed.

(** C9, as the code has it.  A message that reaches processing, with its
    product named and its metadata present.  When the downstream upsert
    fails with an [Error], the call throws an [SqsException] whose
    [originalError] is that error, the only thing sent is the upsert (no
    delete), the key holds a FAILED record with the message of the error and
    [failed] grows by one, the other counters staying.  When the upsert
    succeeds, the upsert and the emit are followed by the delete of the
    receipt handle; if the queue accepts it the call returns, the key holds
    a COMPLETED record and [processed] grows by one, the other counters
    staying. *)
Theorem processing_outcome_is_recorded (message : Message)
    (ed : ProductIngestedEvent) (p : CanonicalProduct) (n : LocalizedString)
    (md : EventMetadata) (w : World) :
  Body message = JsonObject (Some ed) -> product ed = Some p ->
  name p = Some n -> metadata ed = Some md ->
  let key := generateKey (id p) (eventId ed) in
  proceeds_to_processing (env_now env (trace w)) (store w !! key) ->
  let run := processMessageWithRetry env manager message w in
  (forall e msg,
     env_pimcore_upsert env (trace w) p = Throw e -> message_of e = Some msg ->
     fst run = Throw (SqsException ("Message processing failed: " +:+ msg)%string
                                   "processMessage" (MessageId message) e)
     /\ trace (snd run) = trace w ++ [EvPimcoreUpsert (id p) false]
     /\ store (snd run) !! key
        = Some (failed_entry ttl key (env_now env (trace (snd run))) msg)
     /\ failed (metrics (snd run)) = failed (metrics w) + 1
     /\ processed (metrics (snd run)) = processed (metrics w)
     /\ skipped (metrics (snd run)) = skipped (metrics w))
  /\
  (forall resp,
     env_pimcore_upsert env (trace w) p = Ok resp ->
     exists accepted rest,
       let called := [EvPimcoreUpsert (id p) true;
                      EvEmit "product.synced.pimcore" (id p) (pimcore_id resp)] in
       let sent := EvSqsDelete (ReceiptHandle message) accepted :: rest in
       let t := env_now env (trace w ++ called) in
       trace (snd run) = trace w ++ called ++ sent
       /\ downstream_calls sent = []
       /\ (acknowledged (ReceiptHandle message) sent = true ->
           fst run = Ok tt
           /\ store (snd run) !! key
              = Some (completed_entry ttl key t (Some {| processedAt := t |}))
           /\ processed (metrics (snd run)) = processed (metrics w) + 1
           /\ failed (metrics (snd run)) = failed (metrics w)
           /\ skipped (metrics (snd run)) = skipped (metrics w))).
Proof.
  intros Hbody Hprod Hname Hmd key Hproceeds run.
  destruct (checkAndLock_proceeds key w Hproceeds)
    as (st & w1 & Hlock & Hp1 & Hp2 & Htr1 & Hm1 & Hst1).
  unfold run.
  rewrite (processMessageWithRetry_processing _ _ _ _ _ _ Hbody Hprod Hlock Hp1 Hp2).
  unfold try_catch. split.
  - intros e msg Hup Hmsg. rewrite <- Htr1 in Hup.
    rewrite (process_and_mark_downstream_fails _ _ _ _ _ _ _ _ Hname Hup Hmsg).
    destruct (rethrow_world message e
                (world_after_failure env ttl key (id p) msg w1)) as (Hw & _ & Hthrow).
    destruct (rethrow_as_SqsException message e _) as [r2 w2]. simpl in Hw, Hthrow.
    subst w2. rewrite (Hthrow msg Hmsg). simpl.
    rewrite Htr1, Hm1. repeat split; try reflexivity.
    apply lookup_insert_eq.
  - intros resp Hup. rewrite <- Htr1 in Hup.
    destruct (process_and_mark_downstream_succeeds message p ed
                (or_else (correlationId ed) (eventId ed)) n md resp w1 Hname Hmd Hup)
      as (accepted & rest & Htr & Hdown & Hack).
    exists accepted, rest. cbn zeta in *.
    destruct (process_and_mark env manager message p ed _ w1) as [[[]|e] w3];
      simpl in Htr, Hack |- *.
    + split; [rewrite Htr, Htr1, <- !app_assoc; reflexivity|].
      split; [exact Hdown|]. intros Hyes.
      destruct (Hack Hyes) as (_ & Hst & Hm). rewrite Hst, Hm. simpl.
      rewrite Htr1, Hm1, <- !app_assoc. simpl. repeat split; try reflexivity.
      apply lookup_insert_eq.
    + destruct (rethrow_world message e w3) as (Hw & _ & _).
      destruct (rethrow_as_SqsException message e w3) as [r2 w2]. simpl in Hw. subst w2.
      simpl. split; [rewrite Htr, Htr1, <- !app_assoc; reflexivity|].
      split; [exact Hdown|]. intros Hyes.
      destruct (Hack Hyes) as (Habs & _). discriminate.
Qed.

(** C8, as the code has it.  A body that does not parse (or parses to
    [null]) makes the call throw an [SqsException] around the parse error
    with the world untouched: nothing is sent, the message stays in the
    queue.  A parsed body without [detail] or without [detail.product] gets
    its delete sent first and nothing sent downstream; no counter moves,
    [skipped] included, and the store is untouched. *)
Theorem malformed_message_outcome (message : Message) (w : World) :
  let run := processMessageWithRetry env manager message w in
  (forall text, Body message = NotJson text ->
     snd run = w
     /\ exists m m', fst run = Throw (SqsException m "processMessage" (MessageId message)
                                                  (SyntaxError m')))
  /\ (Body message = JsonNull ->
      snd run = w
      /\ exists m m', fst run = Throw (SqsException m "processMessage" (MessageId message)
                                                   (TypeError m')))
  /\ (forall detail, Body message = JsonObject detail -> detail ≫= product = None ->
      exists accepted rest,
        let sent := EvSqsDelete (ReceiptHandle message) accepted :: rest in
        trace (snd run) = trace w ++ sent
        /\ downstream_calls sent = []
        /\ is_Ok (fst run) = acknowledged (ReceiptHandle message) sent
        /\ metrics (snd run) = metrics w
        /\ store (snd run) = store w).
Proof.
  intros run. unfold run, processMessageWithRetry. split; [|split].
  - intros text Hbody. run_M. rewrite Hbody. simpl. eauto.
  - intros Hbody. run_M. rewrite Hbody. simpl. eauto.
  - intros detail Hbody Hnone. run_M. rewrite Hbody. simpl.
    assert (Hdetail : forall eventDetail, detail = Some eventDetail ->
                                          product eventDetail = None).
    { intros eventDetail ->. exact Hnone. }
    destruct detail as [eventDetail|]; simpl;
      [rewrite (Hdetail eventDetail eq_refl)|]; clear Hdetail Hnone.
    all: destruct (deleteMessage_traffic (ReceiptHandle message) w)
      as (accepted & rest & Htr & Hst & Hm & Hall & Hack).
    all: exists accepted, rest.
    all: pose proof (delete_traffic_not_downstream _ _ Hall) as Hdown.
    all: destruct (deleteMessage env (ReceiptHandle message) w) as [[[]|e] w'];
      cbn [fst snd] in *;
      [ repeat split; assumption
      | destruct (rethrow_world message e w') as (Hw & Hok & _);
        destruct (rethrow_as_SqsException message e w') as [r2 w2];
        cbn [fst snd] in *; subst w2; rewrite Hok;
        repeat split; assumption ].
Qed.

End ConsumerFacts.

(** ** The properties on the scenarios *)
Section Scenarios.
Import Idempotency Consumer.

Lemma checkAndLock_contract_witness :
  store w_empty !! shirt_key = None
  /\ fst (checkAndLock env_up (IdempotencyService env_up day) shirt_key w_empty)
     = Ok NOT_FOUND
  /\ fst (checkAndLock env_up (IdempotencyService env_up day) shirt_key
            (snd (checkAndLock env_up (IdempotencyService env_up day) shirt_key w_empty)))
     = Ok PROCESSING.
Proof.
  split; [reflexivity|].
  apply (proj1 (proj2 (proj2 (checkAndLock_contract env_up day shirt_key)))).
  - reflexivity.
  - reflexivity.
  - vm_compute. discriminate.
Defined.

Lemma completed_duplicate_is_skipped_witness :
  store w_completed !! generateKey (id shirt) (eventId shirt_event)
  = Some (completed_entry day shirt_key 500 None)
  /\ skipped (metrics (snd (processMessageWithRetry env_up (IdempotencyService env_up day)
                              msg_shirt w_completed))) = 1.
Proof.
  split; [vm_compute; reflexivity|].
  destruct (completed_duplicate_is_skipped env_up day msg_shirt shirt_event shirt
              (completed_entry day shirt_key 500 None) w_completed)
    as (accepted & rest & _ & _ & _ & Hskipped & _).
  - reflexivity.
  - reflexivity.
  - vm_compute. reflexivity.
  - reflexivity.
  - vm_compute. discriminate.
  - exact Hskipped.
Defined.

Lemma execute_fails_fast_witness :
  Breaker.execute env_up (Breaker.scripted_operation (Breaker.Resolved tt))
    open_breaker w_empty
  = (Throw (CircuitBreakerOpenException "test-service"), open_breaker, w_empty).
Proof.
  apply (execute_fails_fast env_up (Breaker.scripted_operation (Breaker.Resolved tt))
           open_breaker w_empty 990).
  - reflexivity.
  - reflexivity.
  - discriminate.
  - vm_compute. reflexivity.
Defined.

Lemma breaker_follows_machine_witness :
  Breaker.state
    (fst (Breaker.run env_up [failing_call; failing_call; failing_call]
            (Breaker.new_CircuitBreaker "test-service" test_breaker_config, w_empty)))
  = Breaker.OPEN.
Proof.
  destruct (breaker_follows_machine env_up "test-service" test_breaker_config
              [failing_call; failing_call; failing_call] w_empty) as [Hstate _].
  - intros tr. simpl. lia.
  - repeat constructor.
  - exact Hstate.
Defined.

(** C4 as stated fails.  Three calls in a row are rejected with [undefined]
    under [failureThreshold = 3]: the counter reaches the threshold and the
    breaker is still CLOSED, where the machine of the design text is OPEN. *)
Lemma breaker_stays_closed_on_undefined_rejections :
  let calls := [rejecting_with_undefined; rejecting_with_undefined;
                rejecting_with_undefined] in
  let cb := fst (Breaker.run env_up calls (test_breaker, w_empty)) in
  let m0 := {| Breaker.m_state := Breaker.CLOSED; Breaker.m_history := [];
               Breaker.m_lastFailure := 0; Breaker.m_trace := trace w_empty |} in
  Breaker.failureThreshold (Breaker.config cb) = 3
  /\ Breaker.failureCount cb = 3
  /\ Breaker.state cb = Breaker.CLOSED
  /\ Breaker.m_state (Breaker.machine_run env_up (Breaker.config cb) calls m0)
     = Breaker.OPEN
  /\ fst (fst (Breaker.execute env_up (Breaker.scripted_operation (T := unit)
                                         (Breaker.Rejected Undefined))
                 test_breaker w_empty))
     = Throw (TypeError "Cannot read properties of undefined (reading 'message')").
Proof. vm_compute. repeat split; reflexivity. Qed.

Lemma retryWithBackoff_contract_witness :
  (exists w',
     Retry.retryWithBackoff env_up (scripted fails_twice) four_attempts_config
       (Some test_logger) w_empty
     = (Ok "success"%string, w')
     /\ invocations (trace w') = 3%nat /\ sleeps (trace w') = 2%nat
     /\ last (trace w') = Some EvInvoke)
  /\ (exists w',
        Retry.retryWithBackoff env_up (scripted fails_always) four_attempts_config
          (Some test_logger) w_empty
        = (Throw (Error "permanent failure"), w')
        /\ invocations (trace w') = 4%nat /\ sleeps (trace w') = 3%nat
        /\ last (trace w') = Some EvInvoke).
Proof.
  split.
  - apply (proj1 (retryWithBackoff_contract env_up fails_twice four_attempts_config
                    (Some test_logger)
                    w_empty 3 ltac:(simpl; lia) ltac:(lia) ltac:(simpl; lia)
                    ltac:(intros [|[|i]] Hi;
                          [eexists; split; [reflexivity | right; discriminate] ..
                          | simpl in Hi; lia]))).
    reflexivity.
  - apply (proj2 (retryWithBackoff_contract env_up fails_always four_attempts_config
                    (Some test_logger)
                    w_empty 4 ltac:(simpl; lia) ltac:(lia) ltac:(simpl; lia)
                    ltac:(intros i _; eexists; split; [reflexivity | right; discriminate]))).
    + reflexivity.
    + reflexivity.
    + right. discriminate.
Defined.

(** C5 as stated fails.  A logger is passed, the operation fails once with
    [undefined] and would succeed on its second call, and three attempts are
    allowed: the log line of the first failure throws, so the operation is
    called once and its success is never returned.  An operation that fails
    with [undefined] on its only attempt gets a [TypeError] back, not what
    it threw. *)
Lemma retryWithBackoff_aborted_by_log_line :
  (let run := Retry.retryWithBackoff env_up (scripted fails_once_with_undefined)
                test_retry_config (Some test_logger) w_empty in
   fails_once_with_undefined 0 = Throw Undefined
   /\ fails_once_with_undefined 1 = Ok "success"%string
   /\ fst run = Throw (TypeError "Cannot read properties of undefined (reading 'message')")
   /\ invocations (trace (snd run)) = 1%nat
   /\ sleeps (trace (snd run)) = 0%nat)
  /\
  (let run := Retry.retryWithBackoff env_up (scripted fails_once_with_undefined)
                single_attempt_config (Some test_logger) w_empty in
   fst run <> Throw Undefined
   /\ invocations (trace (snd run)) = 1%nat).
Proof. vm_compute. repeat split; try reflexivity. discriminate. Qed.

Lemma InMemory_get_respects_ttl_witness :
  fst (InMemory_get 1200 shirt_key
         (InMemory_set 1000 shirt_key (record (lock_entry 500 shirt_key 1000)) 500 ∅))
  = Some (record (lock_entry 500 shirt_key 1000))
  /\ fst (InMemory_get 1600 shirt_key
            (InMemory_set 1000 shirt_key (record (lock_entry 500 shirt_key 1000)) 500 ∅))
     = None.
Proof.
  split.
  - rewrite (proj1 (InMemory_get_respects_ttl 1000 1200 shirt_key
                      (record (lock_entry 500 shirt_key 1000)) 500 ∅)); [reflexivity | lia].
  - apply (proj2 (InMemory_get_respects_ttl 1000 1600 shirt_key
                      (record (lock_entry 500 shirt_key 1000)) 500 ∅)). lia.
Defined.


(** C8 as stated fails.  A body that is not JSON: no delete is sent and the
    call throws, so the message stays in the queue.  A body without product:
    the delete is accepted, and [skipped] is still 0. *)
Lemma malformed_message_not_dropped_nor_counted :
  (let run := processMessageWithRetry env_up (IdempotencyService env_up day)
                msg_not_json w_empty in
   delete_requested (ReceiptHandle msg_not_json) (trace (snd run)) = false
   /\ is_Ok (fst run) = false)
  /\
  (let run := processMessageWithRetry env_up (IdempotencyService env_up day)
                msg_no_product w_empty in
   acknowledged (ReceiptHandle msg_no_product) (trace (snd run)) = true
   /\ skipped (metrics (snd run)) = skipped (metrics w_empty)).
Proof. vm_compute. repeat split; reflexivity. Qed.

Lemma malformed_message_outcome_witness :
  snd (processMessageWithRetry env_up (IdempotencyService env_up day) msg_not_json w_empty)
  = w_empty
  /\ metrics (snd (processMessageWithRetry env_up (IdempotencyService env_up day)
                     msg_no_product w_empty))
     = metrics w_empty.
Proof.
  pose proof (malformed_message_outcome env_up day msg_not_json w_empty) as (Hsyntax & _ & _).
  pose proof (malformed_message_outcome env_up day msg_no_product w_empty) as (_ & _ & Hfield).
  split.
  - exact (proj1 (Hsyntax "{"%string eq_refl)).
  - destruct (Hfield _ eq_refl eq_refl) as (accepted & rest & _ & _ & _ & Hm & _).
    exact Hm.
Defined.

(** C9 as stated fails.  The PIM took the product, the queue refused the
    delete: the key ends FAILED, [processed] is still 0 and [failed] is 1. *)
Lemma processed_work_marked_failed_when_delete_fails :
  let run := processMessageWithRetry env_queue_down (IdempotencyService env_queue_down day)
               msg_shirt w_empty in
  env_pimcore_upsert env_queue_down (trace w_empty) shirt = Ok pim_1
  /\ downstream_calls (trace (snd run))
     = [EvPimcoreUpsert (Some "p1"%string) true;
        EvEmit "product.synced.pimcore" (Some "p1"%string) "pim-1"]
  /\ (status <$> (record <$> store (snd run) !! shirt_key)) = Some FAILED
  /\ processed (metrics (snd run)) = processed (metrics w_empty)
  /\ failed (metrics (snd run)) = failed (metrics w_empty) + 1.
Proof. vm_compute. repeat split; reflexivity. Qed.

Lemma processing_outcome_is_recorded_witness :
  (let run := processMessageWithRetry env_pim_down (IdempotencyService env_pim_down day)
                msg_shirt w_empty in
   fst run = Throw (SqsException "Message processing failed: pimcore unavailable"
                      "processMessage" (Some "m1"%string) (Error "pimcore unavailable"))
   /\ failed (metrics (snd run)) = 1)
  /\
  (let run := processMessageWithRetry env_up (IdempotencyService env_up day)
                msg_shirt w_empty in
   fst run = Ok tt /\ processed (metrics (snd run)) = 1
   /\ (status <$> (record <$> store (snd run) !! shirt_key)) = Some COMPLETED).
Proof.
  split.
  - destruct (processing_outcome_is_recorded env_pim_down day msg_shirt shirt_event shirt
                {| ar := None; en := Some "Shirt"%string |} {| batchId := Some "b1"%string |}
                w_empty eq_refl eq_refl eq_refl eq_refl I) as (Hfail & _).
    destruct (Hfail (Error "pimcore unavailable") "pimcore unavailable"%string
                eq_refl eq_refl) as (Hthrow & _ & _ & Hfailed & _).
    split; [exact Hthrow | exact Hfailed].
  - destruct (processing_outcome_is_recorded env_up day msg_shirt shirt_event shirt
                {| ar := None; en := Some "Shirt"%string |} {| batchId := Some "b1"%string |}
                w_empty eq_refl eq_refl eq_refl eq_refl I) as (_ & Hok).
    destruct (Hok pim_1 eq_refl) as (accepted & rest & Htr & _ & Hack).
    assert (Hyes : acknowledged (ReceiptHandle msg_shirt)
                     (EvSqsDelete (ReceiptHandle msg_shirt) accepted :: rest) = true).
    { revert Htr. vm_compute. intros Htr. injection Htr as <- <-. reflexivity. }
    destruct (Hack Hyes) as (Hret & Hst & Hproc & _).
    split; [exact Hret|]. split; [exact Hproc|].
    cbv zeta in Hst.
    change shirt_key with (generateKey (id shirt) (eventId shirt_event)).
    rewrite Hst. reflexivity.
Defined.


End Scenarios.

(** * More properties *)

Section RetryMore.
Import Retry.

(** X3. without a single attempt allowed the operation is not called. *)
Theorem retryWithBackoff_no_attempt (env : Env) {T : Type} (operation : M T)
    (config : PartialRetryConfig) (logger : option Logger) (w : World) :
  maxAttempts (spread DEFAULT_CONFIG config) <= 0 ->
  retryWithBackoff env operation config logger w = (Throw Undefined, w).
Proof.
  intros Hmax. unfold retryWithBackoff.
  replace (Z.to_nat (maxAttempts (spread DEFAULT_CONFIG config))) with 0%nat by lia.
  reflexivity.
Qed.
End RetryMore.


Section DeleteSchedule.
Import Retry Consumer.
Context (env : Env).

(** One attempt of the delete loop. *)
Lemma delete_attempt (h : string) (cfg : RetryConfig) (logger : Logger)
    (remaining : nat) (attempt : Z) (lastError : Exn) (w : World) :
  retry_loop env (send_DeleteMessageCommand env h) cfg (Some logger) (S remaining)
    attempt lastError w
  = match env_sqs_delete env (trace w) h with
    | Ok v => (Ok v, log (EvSqsDelete h true) w)
    | Throw e =>
        let w1 := log (EvSqsDelete h false) w in
        if has_message e then
          retry_loop env (send_DeleteMessageCommand env h) cfg (Some logger) remaining
            (attempt + 1) e
            (if attempt <? maxAttempts cfg - 1
             then log (EvSleep (calculateDelay (env_pow env) (env_random env (trace w1))
                                  (number_of_Z attempt) cfg)) w1
             else w1)
        else
          (Throw (TypeError "Cannot read properties of undefined (reading 'message')"), w1)
    end.
Proof.
  cbn [retry_loop]. unfold send_DeleteMessageCommand at 1.
  destruct (env_sqs_delete env (trace w) h) as [v|e]; [reflexivity|].
  cbn [is_Ok]. unfold has_message, log_line, property_of, mbind, M_bind, bind.
  destruct (message_of e); destruct (attempt <? maxAttempts cfg - 1); reflexivity.
Qed.

(** X4. what the queue sees of one [deleteMessage]: at most three deletes,
    the first accepted one being the last; a refusal whose error has no
    [message] ends the call at once with a [TypeError]; the call sleeps
    [Math.round(500 * (0.5 + random))] after a first refusal and the delay of
    the calculator for attempt 1 after a second one, never after the third,
    whose error it throws. *)
Theorem deleteMessage_schedule (h : string) (w : World) :
  let run := deleteMessage env h w in
  let refused := EvSqsDelete h false in
  let accepted := EvSqsDelete h true in
  let unreadable := TypeError "Cannot read properties of undefined (reading 'message')" in
  let d0 := Math_round (500 * (0.5 + env_random env (trace w ++ [refused])))%float in
  let d1 := calculateDelay (env_pow env)
              (env_random env (trace w ++ [refused; EvSleep d0; refused]))
              1%float deleteMessage_config in
  let answer (sent : list Event) := env_sqs_delete env (trace w ++ sent) h in
  store (snd run) = store w /\ metrics (snd run) = metrics w
  /\ match answer [] with
     | Ok _ => trace (snd run) = trace w ++ [accepted] /\ fst run = Ok tt
     | Throw e0 =>
     if negb (has_message e0)
     then trace (snd run) = trace w ++ [refused] /\ fst run = Throw unreadable
     else
     match answer [refused; EvSleep d0] with
     | Ok _ =>
         trace (snd run) = trace w ++ [refused; EvSleep d0; accepted] /\ fst run = Ok tt
     | Throw e1 =>
     if negb (has_message e1)
     then trace (snd run) = trace w ++ [refused; EvSleep d0; refused]
          /\ fst run = Throw unreadable
     else
     match answer [refused; EvSleep d0; refused; EvSleep d1] with
     | Ok _ =>
         trace (snd run)
         = trace w ++ [refused; EvSleep d0; refused; EvSleep d1; accepted]
         /\ fst run = Ok tt
     | Throw e2 =>
         trace (snd run)
         = trace w ++ [refused; EvSleep d0; refused; EvSleep d1; refused]
         /\ fst run = Throw (if has_message e2 then e2 else unreadable)
     end end end.
Proof.
  intros run refused accepted unreadable d0 d1 answer.
  unfold run, deleteMessage, retryWithBackoff.
  change (spread DEFAULT_CONFIG _) with deleteMessage_config.
  change (Z.to_nat (maxAttempts deleteMessage_config)) with 3%nat.
  unfold answer. rewrite app_nil_r.
  rewrite delete_attempt.
  destruct (env_sqs_delete env (trace w) h) as [[]|e0]; [repeat split|].
  cbv zeta. destruct (has_message e0); [|repeat split].
  cbn [negb]. change (0 <? maxAttempts deleteMessage_config - 1) with true. cbv iota.
  change (calculateDelay (env_pow env)
            (env_random env (trace (log (EvSqsDelete h false) w)))
            (number_of_Z 0) deleteMessage_config) with d0.
  rewrite delete_attempt.
  cbn [trace log]. rewrite <- ?app_assoc; cbn [app].
  fold refused.
  destruct (env_sqs_delete env (trace w ++ [refused; EvSleep d0]) h) as [[]|e1].
  { cbn [trace log snd fst store metrics]. rewrite <- ?app_assoc; cbn [app]. repeat split. }
  cbv zeta. destruct (has_message e1).
  2:{ cbn [negb trace log snd fst store metrics]. rewrite <- ?app_assoc; cbn [app]. repeat split. }
  cbn [negb]. change (0 + 1 <? maxAttempts deleteMessage_config - 1) with true. cbv iota.
  change (number_of_Z (0 + 1)) with 1%float.
  cbn [trace log]. rewrite <- ?app_assoc; cbn [app]. fold d1.
  rewrite delete_attempt.
  cbn [trace log]. rewrite <- ?app_assoc; cbn [app].
  destruct (env_sqs_delete env (trace w ++ [refused; EvSleep d0; refused; EvSleep d1]) h)
    as [[]|e2].
  { cbn [trace log snd fst store metrics]. rewrite <- ?app_assoc; cbn [app]. repeat split. }
  cbv zeta.
  change (0 + 1 + 1 <? maxAttempts deleteMessage_config - 1) with false. cbv iota.
  destruct (has_message e2) eqn:E2.
  - (* the loop is over: the third error is thrown *)
    cbn [retry_loop throw trace log snd fst store metrics].
    rewrite <- ?app_assoc; cbn [app]. repeat split.
  - cbn [trace log snd fst store metrics]. rewrite <- ?app_assoc; cbn [app]. repeat split.
Qed.

End DeleteSchedule.


Section BreakerMore.
Import Breaker.
Context (env : Env).

Lemma new_CircuitBreaker_invariant (name : string) (config : PartialCircuitBreakerConfig) :
  1 <= failureThreshold (spread DEFAULT_CONFIG config) ->
  breaker_invariant (new_CircuitBreaker name config).
Proof. intros H. unfold breaker_invariant. simpl in *. lia. Qed.

(** X5. counters stay consistent with the state over every [execute] whose
    operation succeeds, times out or is rejected with an error that has a
    [message], and over [reset]. *)
Theorem breaker_invariant_kept {T : Type} (operation : Operation T)
    (cb : CircuitBreaker) (w : World) :
  1 <= failureThreshold (config cb) -> 1 <= successThreshold (config cb) ->
  breaker_invariant cb ->
  printable (fst (operation w)) = true ->
  let cb' := snd (fst (execute env operation cb w)) in
  breaker_invariant cb'
  /\ config cb' = config cb /\ serviceName cb' = serviceName cb
  /\ breaker_invariant (reset cb).
Proof.
  intros HfT HsT (Hf & Hs & Hst) Hprint. destruct cb as [st fc sc lft name cfg].
  unfold breaker_invariant, execute, isOpen, shouldAttemptReset, withTimeout,
    onSuccess, onFailure, reset, printable, has_message in *.
  simpl in *.
  destruct st; simpl;
    repeat match goal with H : _ /\ _ |- _ => destruct H end.
  - destruct (operation w) as [[v|e|] w']; simpl in Hprint; simpl;
      try (destruct (message_of e); [|discriminate]);
      try destruct (failureThreshold cfg <=? fc + 1) eqn:E; simpl;
      repeat split; try lia; try discriminate.
  - destruct lft as [t|]; [destruct (t =? 0)|]; simpl;
      try destruct (resetTimeout cfg <=? env_now env (trace w) - t); simpl;
      try (destruct (operation w) as [[v|e|] w']; simpl in Hprint; simpl;
           try (destruct (message_of e); [|discriminate]);
           try destruct (successThreshold cfg <=? 0 + 1) eqn:E; simpl);
      repeat split; try lia; try discriminate; try tauto.
  - destruct (operation w) as [[v|e|] w']; simpl in Hprint; simpl;
      try (destruct (message_of e); [|discriminate]);
      try destruct (successThreshold cfg <=? sc + 1) eqn:E; simpl;
      repeat split; try lia; try discriminate.
Qed.

Lemma spread_as_partial (c : Retry.RetryConfig) :
  Retry.spread Retry.DEFAULT_CONFIG (Pimcore.as_partial c) = c.
Proof. destruct c; reflexivity. Qed.

Lemma has_message_loggable (logger : option Logger) (e : Exn) :
  has_message e = true -> loggable logger e.
Proof.
  unfold has_message, loggable. destruct (message_of e); [right; discriminate | discriminate].
Qed.

(** What [onFailure] does with an error that has a [message]. *)
Lemma onFailure_counted (now : Z) (e : Exn) (cb : CircuitBreaker) :
  has_message e = true ->
  state cb = CLOSED ->
  exists cb',
    onFailure now e cb = (Ok tt, cb')
    /\ failureCount cb' = failureCount cb + 1
    /\ lastFailureTime cb' = Some now
    /\ config cb' = config cb /\ serviceName cb' = serviceName cb
    /\ state cb'
       = if failureThreshold (config cb) <=? failureCount cb + 1 then OPEN else CLOSED.
Proof.
  intros Hmsg Hst. unfold onFailure, has_message in *.
  destruct (message_of e); [|discriminate]. rewrite Hst. simpl.
  eexists. split; [reflexivity|].
  destruct (failureThreshold (config cb) <=? failureCount cb + 1); simpl;
    repeat split; reflexivity.
Qed.

Lemma upsertProduct_exhausted {T : Type} (outcomes : nat -> Res T)
    (retryConfig : Retry.RetryConfig) (cb : CircuitBreaker) (w : World) (e : Exn) :
  state cb = CLOSED ->
  1 <= Retry.maxAttempts retryConfig ->
  let k := Z.to_nat (Retry.maxAttempts retryConfig) in
  (forall i, (i < k - 1)%nat ->
     exists e', outcomes (invocations (trace w) + i)%nat = Throw e'
                /\ has_message e' = true) ->
  outcomes (invocations (trace w) + (k - 1))%nat = Throw e ->
  has_message e = true ->
  exists w',
    Pimcore.upsertProduct env (scripted outcomes) retryConfig false cb w
    = (Throw e, snd (onFailure (env_now env (trace w')) e cb), w')
    /\ invocations (trace w') = (invocations (trace w) + k)%nat
    /\ sleeps (trace w') = (sleeps (trace w) + (k - 1))%nat
    /\ store w' = store w /\ metrics w' = metrics w.
Proof.
  intros Hst Hmax k Hfail Hlast Hmsg.
  pose proof (retry_loop_exhausted env outcomes retryConfig
                (Some Pimcore.PimcoreService_logger) (k - 1) 0 Undefined w e) as Hex.
  replace (S (k - 1)) with k in Hex by lia.
  destruct Hex as (w' & Hrun & Hi & Hs & _ & Hstore & Hm);
    [lia | | exact Hlast | apply has_message_loggable; exact Hmsg |].
  { intros i Hi. destruct (Hfail i Hi) as (e' & He' & Hm').
    exists e'. split; [exact He' | apply has_message_loggable; exact Hm']. }
  exists w'. split; [|repeat split; assumption || lia].
  unfold Pimcore.upsertProduct, execute, isOpen. rewrite Hst.
  unfold withTimeout, Pimcore.async_operation, Retry.retryWithBackoff.
  rewrite spread_as_partial. fold k. rewrite Hrun.
  destruct (onFailure_counted (env_now env (trace w')) e cb Hmsg Hst) as (cb' & -> & _).
  reflexivity.
Qed.

(** X6. when the retry loop settles before the timer of the breaker fires: a
    business operation that uses up its retries on errors that have a
    [message] is one failure for the breaker. *)
Theorem exhausted_retries_count_once {T : Type} (outcomes : nat -> Res T)
    (retryConfig : Retry.RetryConfig) (cb : CircuitBreaker) (w : World) (e : Exn) :
  state cb = CLOSED ->
  1 <= Retry.maxAttempts retryConfig ->
  let k := Z.to_nat (Retry.maxAttempts retryConfig) in
  (forall i, (i < k - 1)%nat ->
     exists e', outcomes (invocations (trace w) + i)%nat = Throw e'
                /\ has_message e' = true) ->
  outcomes (invocations (trace w) + (k - 1))%nat = Throw e ->
  has_message e = true ->
  let run := Pimcore.upsertProduct env (scripted outcomes) retryConfig false cb w in
  fst (fst run) = Throw e
  /\ invocations (trace (snd run)) = (invocations (trace w) + k)%nat
  /\ failureCount (snd (fst run)) = failureCount cb + 1
  /\ lastFailureTime (snd (fst run)) = Some (env_now env (trace (snd run)))
  /\ state (snd (fst run))
     = if failureThreshold (config cb) <=? failureCount cb + 1 then OPEN else CLOSED.
Proof.
  intros Hst Hmax k Hfail Hlast Hmsg run.
  destruct (upsertProduct_exhausted outcomes retryConfig cb w e Hst Hmax Hfail Hlast Hmsg)
    as (w' & Hrun & Hi & _).
  unfold run. rewrite Hrun. clear Hrun.
  destruct (onFailure_counted (env_now env (trace w')) e cb Hmsg Hst)
    as (cb' & -> & Hfc & Hlft & _ & _ & Hstate).
  simpl. repeat split; assumption.
Qed.

(** X7. when the retry loop settles before the timer of the breaker fires:
    failures that have a [message] and that the retries absorb never reach
    the breaker. *)
Theorem absorbed_failures_do_not_count {T : Type} (outcomes : nat -> Res T)
    (retryConfig : Retry.RetryConfig) (cb : CircuitBreaker) (w : World)
    (j : nat) (v : T) :
  state cb = CLOSED ->
  Z.of_nat j < Retry.maxAttempts retryConfig ->
  (forall i, (i < j)%nat ->
     exists e', outcomes (invocations (trace w) + i)%nat = Throw e'
                /\ has_message e' = true) ->
  outcomes (invocations (trace w) + j)%nat = Ok v ->
  let run := Pimcore.upsertProduct env (scripted outcomes) retryConfig false cb w in
  fst (fst run) = Ok v
  /\ invocations (trace (snd run)) = (invocations (trace w) + j + 1)%nat
  /\ state (snd (fst run)) = CLOSED
  /\ failureCount (snd (fst run)) = 0
  /\ lastFailureTime (snd (fst run)) = lastFailureTime cb.
Proof.
  intros Hst Hj Hfail Hok run.
  destruct (retry_loop_success env outcomes retryConfig
              (Some Pimcore.PimcoreService_logger) j
              (Z.to_nat (Retry.maxAttempts retryConfig)) 0 Undefined w v)
    as (w' & Hrun & Hi & _); [lia | lia | | exact Hok |].
  { intros i Hi. destruct (Hfail i Hi) as (e' & He' & Hm').
    exists e'. split; [exact He' | apply has_message_loggable; exact Hm']. }
  unfold run, Pimcore.upsertProduct, execute, isOpen. rewrite Hst.
  unfold withTimeout, Pimcore.async_operation, Retry.retryWithBackoff.
  rewrite spread_as_partial, Hrun. clear Hrun.
  destruct cb as [st fc sc lft name cfg]. simpl in Hst. subst st.
  unfold onSuccess. simpl. repeat split; assumption.
Qed.

Lemma upsert_each_exhausted {T : Type} (outcomes : nat -> Res T)
    (retryConfig : Retry.RetryConfig) (n : nat) :
  always_fails outcomes ->
  1 <= Retry.maxAttempts retryConfig ->
  forall (cb : CircuitBreaker) (w : World),
    state cb = CLOSED ->
    failureCount cb < failureThreshold (config cb) ->
    failureCount cb + Z.of_nat n <= failureThreshold (config cb) ->
    let st := Pimcore.upsert_each env n (scripted outcomes) retryConfig (cb, w) in
    failureCount (fst st) = failureCount cb + Z.of_nat n
    /\ config (fst st) = config cb
    /\ invocations (trace (snd st))
       = (invocations (trace w) + n * Z.to_nat (Retry.maxAttempts retryConfig))%nat
    /\ state (fst st)
       = (if failureThreshold (config cb) <=? failureCount cb + Z.of_nat n
          then OPEN else CLOSED)
    /\ serviceName (fst st) = serviceName cb
    /\ (n <> O -> lastFailureTime (fst st) = Some (env_now env (trace (snd st)))).
Proof.
  intros Hall Hmax. induction n as [|n IH]; intros cb w Hst Hlt Hle.
  - simpl. rewrite Z.add_0_r, Hst.
    destruct (failureThreshold (config cb) <=? failureCount cb) eqn:E; [lia|].
    repeat split; lia || congruence.
  - cbn [Pimcore.upsert_each fst snd].
    destruct (Hall (invocations (trace w)
                    + (Z.to_nat (Retry.maxAttempts retryConfig) - 1))%nat)
      as (e & He & Hmsg).
    destruct (upsertProduct_exhausted outcomes retryConfig cb w e Hst Hmax
                ltac:(intros i _; apply Hall) He Hmsg) as (w' & Hrun & Hi & _).
    rewrite Hrun.
    destruct (onFailure_counted (env_now env (trace w')) e cb Hmsg Hst)
      as (cb' & -> & Hfc & Hlft & Hcfg & Hname & Hstate).
    cbn [snd].
    destruct (failureThreshold (config cb) <=? failureCount cb + 1) eqn:E.
    + (* the breaker opens on this operation: it was the last one *)
      assert (n = 0%nat) by lia. subst n. simpl.
      rewrite Hfc, Hcfg, Hi, Hstate, Hname, Hlft.
      replace (failureCount cb + Z.of_nat 1) with (failureCount cb + 1) by lia.
      rewrite E. repeat split; lia.
    + destruct (IH cb' w' Hstate ltac:(rewrite Hcfg, Hfc; lia)
                  ltac:(rewrite Hcfg, Hfc; lia)) as (H1 & H2 & H3 & H4 & H5 & H6).
      rewrite H1, H2, H3, H4, H5, Hcfg, Hfc, Hi, Hname.
      replace (failureCount cb + 1 + Z.of_nat n)
        with (failureCount cb + Z.of_nat (S n)) by lia.
      repeat split; try lia.
      intros _. destruct n as [|n]; [exact Hlft | apply H6; discriminate].
Qed.

(** X8. when every retry loop settles before the timer of the breaker fires
    and every HTTP attempt fails with an error that has a [message]: as many
    exhausted business operations as the [failureThreshold] of the caller (5
    when it gives none) open a fresh breaker, each counted once whatever the
    number of attempts. *)
Theorem exhausted_operations_open_breaker {T : Type} (outcomes : nat -> Res T)
    (retryConfig : Retry.RetryConfig) (name : string)
    (config : PartialCircuitBreakerConfig) (w : World) :
  always_fails outcomes ->
  1 <= Retry.maxAttempts retryConfig ->
  let cb0 := new_CircuitBreaker name config in
  let threshold := default 5 (p_failureThreshold config) in
  1 <= threshold ->
  (forall n, Z.of_nat n < threshold ->
     state (fst (Pimcore.upsert_each env n (scripted outcomes) retryConfig (cb0, w)))
     = CLOSED)
  /\ (let st := Pimcore.upsert_each env (Z.to_nat threshold) (scripted outcomes)
                  retryConfig (cb0, w) in
      state (fst st) = OPEN
      /\ failureCount (fst st) = threshold
      /\ invocations (trace (snd st))
         = (invocations (trace w)
            + Z.to_nat threshold * Z.to_nat (Retry.maxAttempts retryConfig))%nat
      /\ (0 < resetTimeout (Breaker.config cb0) ->
          env_now env (trace (snd st)) <> 0 ->
          forall (doUpsertProduct : M T) (late : bool),
            Pimcore.upsertProduct env doUpsertProduct retryConfig late (fst st) (snd st)
            = (Throw (CircuitBreakerOpenException name), fst st, snd st))).
Proof.
  intros Hall Hmax cb0 threshold Hth.
  assert (Hthr : failureThreshold (Breaker.config cb0) = threshold)
    by (unfold threshold; destruct config as [[t|] ? ? ?]; reflexivity).
  assert (Hfc0 : failureCount cb0 = 0) by reflexivity.
  assert (H0 : failureCount cb0 < failureThreshold (Breaker.config cb0))
    by (rewrite Hfc0, Hthr; lia).
  split.
  - intros n Hn.
    destruct (upsert_each_exhausted outcomes retryConfig n Hall Hmax cb0 w eq_refl H0
                ltac:(rewrite Hfc0, Hthr; lia))
      as (_ & _ & _ & Hstate & _).
    rewrite Hstate, Hfc0, Hthr.
    destruct (threshold <=? 0 + Z.of_nat n) eqn:E; [lia | reflexivity].
  - assert (H1 : failureCount cb0 + Z.of_nat (Z.to_nat threshold)
                 <= failureThreshold (Breaker.config cb0)).
    { rewrite Hfc0, Hthr. rewrite Z2Nat.id; lia. }
    destruct (upsert_each_exhausted outcomes retryConfig (Z.to_nat threshold)
                Hall Hmax cb0 w eq_refl H0 H1)
      as (Hfc & Hcfg & Hinv & Hstate & Hname & Hlft).
    cbv zeta. rewrite Hfc0 in Hstate, Hfc. rewrite Hthr in Hstate.
    rewrite Z2Nat.id in Hstate, Hfc by lia.
    destruct (threshold <=? 0 + threshold) eqn:E; [|apply Z.leb_gt in E; lia].
    split; [exact Hstate|]. split; [lia|]. split; [exact Hinv|].
    intros Hreset Hclock doUpsertProduct late.
    specialize (Hlft ltac:(lia)).
    unfold Pimcore.upsertProduct, execute, isOpen, shouldAttemptReset.
    rewrite Hstate, Hlft, Hcfg.
    destruct (env_now env (trace _) =? 0) eqn:E0; [lia|].
    rewrite Z.sub_diag.
    destruct (resetTimeout (Breaker.config cb0) <=? 0) eqn:E1; [lia|].
    rewrite Hname. reflexivity.
Qed.

(** X9. the registry hands out one breaker per name; the configuration of a
    later lookup is ignored. *)
Theorem getCircuitBreaker_shared (name : string)
    (config1 config2 : PartialCircuitBreakerConfig)
    (circuitBreakers : gmap string CircuitBreaker) :
  let first := getCircuitBreaker name config1 circuitBreakers in
  let second := getCircuitBreaker name config2 (snd first) in
  fst second = fst first
  /\ snd second = snd first
  /\ snd first !! name = Some (fst first)
  /\ (circuitBreakers !! name = None -> fst first = new_CircuitBreaker name config1)
  /\ (forall other, other <> name -> snd first !! other = circuitBreakers !! other).
Proof.
  unfold getCircuitBreaker.
  destruct (circuitBreakers !! name) as [cb|] eqn:E; simpl.
  - rewrite E. simpl. repeat split; auto. congruence.
  - rewrite lookup_insert_eq. simpl.
    split; [reflexivity|]. split; [reflexivity|].
    split; [reflexivity|]. split; [reflexivity|].
    intros other Hne. apply lookup_insert_ne. congruence.
Qed.
End BreakerMore.


Section RedisMore.
Import Idempotency Redis.
Context (env : Env) (redis : RedisClient)
        (JSON_stringify : IdempotencyRecord -> string)
        (JSON_parse : string -> Res (option IdempotencyRecord)) (ttl : Z).
Local Abbreviation redis_store := (RedisIdempotencyStore redis JSON_stringify JSON_parse).
Local Abbreviation redis_manager := {| mgr_store := redis_store; ttlMs := ttl |}.

(** X10. over Redis, [get] and [delete] never throw, a failed or unreadable
    read being an absent record; [set] ends as the client's SET ends. *)
Theorem Redis_store_error_handling (key : string) (w : World) :
  fst (store_get redis_store key w)
  = Ok match fst (redis_get redis (keyPrefix +:+ key)%string w) with
       | Ok (Some text) =>
           if String.eqb text "" then None
           else match JSON_parse text with Ok r => r | Throw _ => None end
       | _ => None
       end
  /\ (forall record ttlMs,
        store_set redis_store key record ttlMs w
        = redis_set redis (keyPrefix +:+ key)%string (JSON_stringify record) "PX" ttlMs w)
  /\ fst (store_delete redis_store key w) = Ok tt.
Proof.
  split; [|split].
  - simpl. unfold Redis_get, parse_if_truthy, try_catch. run_M.
    destruct (redis_get redis (keyPrefix +:+ key)%string w) as [[[text|]|e] w1];
      simpl; try reflexivity.
    destruct (String.eqb text ""); simpl; [reflexivity|].
    destruct (JSON_parse text); reflexivity.
  - intros record ttlMs. simpl. unfold Redis_set, try_catch, throw.
    destruct (redis_set redis _ _ _ _ w) as [[[]|e] w1]; reflexivity.
  - simpl. unfold Redis_delete, try_catch.
    destruct (redis_del redis _ w) as [[[]|e] w1]; reflexivity.
Qed.

(** X11. when the read from Redis fails, [checkAndLock] takes the key for
    absent: it writes a PROCESSING record and answers NOT_FOUND, or throws
    what the write throws. *)
Theorem checkAndLock_on_failed_read (key : string) (w : World) (e : Exn) :
  fst (redis_get redis (keyPrefix +:+ key)%string w) = Throw e ->
  let w1 := snd (redis_get redis (keyPrefix +:+ key)%string w) in
  let now := env_now env (trace w1) in
  let lock := {| key := key; status := PROCESSING; createdAt := now; updatedAt := now;
                 result := None; error := None |} in
  let written := redis_set redis (keyPrefix +:+ key)%string (JSON_stringify lock)
                   "PX" ttl w1 in
  checkAndLock env redis_manager key w
  = match fst written with
    | Ok _ => (Ok NOT_FOUND, snd written)
    | Throw e' => (Throw e', snd written)
    end.
Proof.
  intros Hget w1 now lock written. unfold checkAndLock. run_M.
  unfold Redis_get, Redis_set, try_catch. run_M.
  subst written lock now w1.
  destruct (redis_get redis (keyPrefix +:+ key)%string w) as [r0 w1]. simpl in *.
  subst r0. simpl. unfold throw.
  destruct (redis_set redis _ _ _ _ w1) as [[[]|e'] w2]; reflexivity.
Qed.
End RedisMore.

Section IdempotencyMore.
Import Idempotency.
Context (env : Env) (ttl : Z).
Local Abbreviation manager := (Consumer.IdempotencyService env ttl).

Lemma checkAndLock_frame (key : string) (w : World) :
  exists st w',
    checkAndLock env manager key w = (Ok st, w')
    /\ trace w' = trace w /\ metrics w' = metrics w
    /\ (forall other, other <> key -> store w' !! other = store w !! other).
Proof.
  destruct (store w !! key) as [entry|] eqn:E.
  - destruct (Z_lt_le_dec (expiresAt entry) (env_now env (trace w))) as [Hdead|Hlive].
    + rewrite (checkAndLock_expired env ttl _ _ _ E Hdead).
      eexists _, _. split; [reflexivity|]. simpl. repeat split.
      intros other Hne. apply lookup_insert_ne. congruence.
    + rewrite (checkAndLock_existing env ttl _ _ _ E Hlive).
      eexists _, _. split; [reflexivity|]. auto.
  - rewrite (checkAndLock_absent env ttl _ _ E).
    eexists _, _. split; [reflexivity|]. simpl. repeat split.
    intros other Hne. apply lookup_insert_ne. congruence.
Qed.

(** X12. the four operations of the manager on one key never throw, send
    nothing, move no counter and leave every other key alone. *)
Theorem manager_touches_one_key (key : string) (w : World) :
  (exists st w',
     checkAndLock env manager key w = (Ok st, w')
     /\ trace w' = trace w /\ metrics w' = metrics w
     /\ (forall other, other <> key -> store w' !! other = store w !! other))
  /\ (forall (run : M unit),
        (exists r, run = markCompleted env manager key r)
        \/ (exists err, run = markFailed env manager key err)
        \/ run = release manager key ->
        fst (run w) = Ok tt
        /\ trace (snd (run w)) = trace w /\ metrics (snd (run w)) = metrics w
        /\ (forall other, other <> key ->
                          store (snd (run w)) !! other = store w !! other)).
Proof.
  split; [apply checkAndLock_frame|].
  intros run [[r ->] | [[err ->] | ->]].
  - rewrite markCompleted_world. simpl. repeat split.
    intros other Hne. apply lookup_insert_ne. congruence.
  - rewrite markFailed_world. simpl. repeat split.
    intros other Hne. apply lookup_insert_ne. congruence.
  - simpl. repeat split.
    intros other Hne. apply lookup_delete_ne. congruence.
Qed.

(** X13. a key can be locked again after [release] and after its TTL ran out,
    whatever its record said. *)
Theorem key_is_eligible_again (key : string) :
  (forall w later,
     store later !! key = store (snd (release manager key w)) !! key ->
     fst (checkAndLock env manager key later) = Ok NOT_FOUND
     /\ store (snd (checkAndLock env manager key later)) !! key
        = Some (lock_entry ttl key (env_now env (trace later))))
  /\ (forall w entry,
        store w !! key = Some entry ->
        expiresAt entry < env_now env (trace w) ->
        fst (checkAndLock env manager key w) = Ok NOT_FOUND
        /\ store (snd (checkAndLock env manager key w)) !! key
           = Some (lock_entry ttl key (env_now env (trace w)))).
Proof.
  split.
  - intros w later Hk. simpl in Hk. unfold InMemory_delete in Hk.
    rewrite lookup_delete_eq in Hk.
    rewrite (checkAndLock_absent env ttl _ _ Hk). simpl.
    split; [reflexivity | apply lookup_insert_eq].
  - intros w entry Hk Hdead.
    rewrite (checkAndLock_expired env ttl _ _ _ Hk Hdead). simpl.
    split; [reflexivity | apply lookup_insert_eq].
Qed.

(** X14. [markCompleted] and [markFailed] do not look at the record they
    replace: whatever the key held, it then holds a record with the new
    status and the error or result given, and a [checkAndLock] made before
    that record expires, the entry untouched, answers the new status and
    changes nothing. *)
Theorem last_mark_wins (key : string) (w after : World) (r : option IdempotencyResult)
    (err : string) :
  (let w' := snd (markFailed env manager key err w) in
   exists entry,
     store w' !! key = Some entry
     /\ status (record entry) = FAILED
     /\ error (record entry) = Some err /\ result (record entry) = None
     /\ (store after !! key = Some entry ->
         env_now env (trace after) <= expiresAt entry ->
         checkAndLock env manager key after = (Ok FAILED, after)))
  /\ (let w' := snd (markCompleted env manager key r w) in
      exists entry,
        store w' !! key = Some entry
        /\ status (record entry) = COMPLETED
        /\ error (record entry) = None /\ result (record entry) = r
        /\ (store after !! key = Some entry ->
            env_now env (trace after) <= expiresAt entry ->
            checkAndLock env manager key after = (Ok COMPLETED, after))).
Proof.
  split; intros w'; unfold w'.
  - rewrite markFailed_world. simpl. rewrite lookup_insert_eq.
    eexists. split; [reflexivity|]. repeat split.
    intros Hk Hlive. rewrite (checkAndLock_existing env ttl _ _ _ Hk Hlive). reflexivity.
  - rewrite markCompleted_world. simpl. rewrite lookup_insert_eq.
    eexists. split; [reflexivity|]. repeat split.
    intros Hk Hlive. rewrite (checkAndLock_existing env ttl _ _ _ Hk Hlive). reflexivity.
Qed.

End IdempotencyMore.

Section InMemoryMore.
Import Idempotency.

(** X15. expired entries are reclaimed lazily, one per [get] of their key. *)
Theorem InMemory_get_reclaims (now : Z) (key : string) (s : gmap string StoreEntry) :
  let s' := snd (InMemory_get now key s) in
  (forall entry, s !! key = Some entry -> expiresAt entry < now ->
     fst (InMemory_get now key s) = None
     /\ InMemory_size s = S (InMemory_size s')
     /\ s' !! key = None
     /\ (forall other, other <> key -> s' !! other = s !! other))
  /\ ((forall entry, s !! key = Some entry -> now <= expiresAt entry) -> s' = s)
  /\ InMemory_size (InMemory_clear s) = 0%nat
  /\ fst (InMemory_get now key (InMemory_clear s)) = None.
Proof.
  intros s'. split; [|split; [|split]].
  - intros entry Hk Hdead. unfold s'.
    rewrite (InMemory_get_expired _ _ _ _ Hk Hdead). simpl.
    split; [reflexivity|]. split.
    + unfold InMemory_size. rewrite map_size_delete, Hk.
      assert (size s <> 0%nat).
      { apply map_size_ne_0_lookup_2 with key. eauto. }
      simpl. lia.
    + split; [apply lookup_delete_eq|].
      intros other Hne. apply lookup_delete_ne. congruence.
  - intros Hlive. unfold s', InMemory_get.
    destruct (s !! key) as [entry|] eqn:Hk; [|reflexivity].
    specialize (Hlive entry eq_refl).
    destruct (expiresAt entry <? now) eqn:E; [lia | reflexivity].
  - apply map_size_empty.
  - reflexivity.
Qed.

Lemma colon_split (p1 : string) :
  forall (p2 r1 r2 : string),
    has_colon p1 = false -> has_colon p2 = false ->
    (p1 +:+ String ":" r1)%string = (p2 +:+ String ":" r2)%string ->
    p1 = p2 /\ r1 = r2.
Proof.
  induction p1 as [|c p1 IH]; intros p2 r1 r2 H1 H2 Heq.
  - destruct p2 as [|c2 p2]; simpl in *.
    + injection Heq as ->. auto.
    + injection Heq as <- _. discriminate.
  - destruct p2 as [|c2 p2]; simpl in *.
    + injection Heq as -> _. discriminate.
    + injection Heq as -> Heq.
      destruct (Ascii.eqb c2 ":"); [discriminate|].
      destruct (IH p2 r1 r2 H1 H2 Heq) as [-> ->]. auto.
Qed.

Lemma append_cancel_l (p s1 s2 : string) :
  (p +:+ s1)%string = (p +:+ s2)%string -> s1 = s2.
Proof.
  induction p as [|c p IH]; simpl; intros H; [exact H|].
  injection H as H. apply IH. exact H.
Qed.

(** X16. two pairs of ids give the same key only if they print the same,
    provided the product ids hold no colon. *)
Theorem generateKey_injective (p1 e1 p2 e2 : option string) :
  has_colon (interpolate p1) = false -> has_colon (interpolate p2) = false ->
  generateKey p1 e1 = generateKey p2 e2 ->
  interpolate p1 = interpolate p2 /\ interpolate e1 = interpolate e2.
Proof.
  intros H1 H2 Heq. unfold generateKey in Heq.
  apply (append_cancel_l "product:") in Heq.
  change (":event:" +:+ interpolate e1)%string
    with (String ":" ("event:" +:+ interpolate e1))%string in Heq.
  change (":event:" +:+ interpolate e2)%string
    with (String ":" ("event:" +:+ interpolate e2))%string in Heq.
  destruct (colon_split _ _ _ _ H1 H2 Heq) as [Hp He].
  split; [exact Hp|]. apply (append_cancel_l "event:"). exact He.
Qed.

(** Without that proviso keys collide. *)
Lemma generateKey_collision :
  generateKey (Some "a:event:b"%string) (Some "c"%string)
  = generateKey (Some "a"%string) (Some "b:event:c"%string).
Proof. reflexivity. Qed.
End InMemoryMore.


Section ConsumerMore.
Import Idempotency Consumer.
Context (env : Env) (ttl : Z).
Local Abbreviation manager := (IdempotencyService env ttl).
Local Opaque deleteMessage.

Ltac delete_step :=
  match goal with
  | |- context [deleteMessage env ?h ?w0] =>
      let r := fresh "r" in
      let w3 := fresh "w3" in
      destruct (deleteMessage_traffic env h w0)
        as (accepted & rest & Htr & Hst & Hm & Hall & Hack);
      destruct (deleteMessage env h w0) as [r w3];
      simpl in Htr, Hst, Hm, Hack; destruct r as [[]|?]; simpl
  end.

(** What one run of the processing block amounts to. *)
Lemma process_and_mark_summary (message : Message) (p : CanonicalProduct)
    (ed : ProductIngestedEvent) (cid : option string) (w : World) :
  let run := process_and_mark env manager message p ed cid w in
  exists new,
    trace (snd run) = trace w ++ new
    /\ is_Ok (fst run) = acknowledged (ReceiptHandle message) new
    /\ totalDurationMs (metrics (snd run)) = totalDurationMs (metrics w)
    /\ skipped (metrics (snd run)) = skipped (metrics w)
    /\ ((is_Ok (fst run) = true
         /\ processed (metrics (snd run)) = processed (metrics w) + 1
         /\ failed (metrics (snd run)) = failed (metrics w))
        \/ (is_Ok (fst run) = false
            /\ processed (metrics (snd run)) = processed (metrics w)
            /\ (failed (metrics (snd run)) = failed (metrics w) + 1
                \/ failed (metrics (snd run)) = failed (metrics w)))).
Proof.
  unfold process_and_mark, processProduct, service_markCompleted, service_markFailed.
  run_M.
  destruct (name p) as [n|]; simpl;
    [|exists []; rewrite app_nil_r; auto 10].
  destruct (env_pimcore_upsert env (trace w) p) as [resp|e]; simpl.
  - destruct (metadata ed) as [md|]; simpl;
      [|eexists [_]; split; [reflexivity|]; simpl; auto 10].
    delete_step.
    + eexists. rewrite Htr, <- !app_assoc. split; [reflexivity|].
      rewrite !acknowledged_app. simpl. rewrite <- Hack, Hm. simpl. auto 10.
    + assert (Hnot : false = acknowledged (ReceiptHandle message)
                               ([EvPimcoreUpsert (id p) true] ++
                                [EvEmit "product.synced.pimcore" (id p) (pimcore_id resp)] ++
                                EvSqsDelete (ReceiptHandle message) accepted :: rest)).
      { rewrite !acknowledged_app. simpl. exact Hack. }
      destruct (message_of e) as [msg|]; simpl;
        (eexists; rewrite Htr, <- !app_assoc; split; [reflexivity|]);
        rewrite <- Hnot, Hm; simpl; auto 10.
  - destruct (message_of e) as [msg|]; simpl;
      (eexists [_]; split; [reflexivity|]); simpl; auto 10.
Qed.

Lemma rethrow_keeps (message : Message) (body : M unit) (w : World) :
  snd (try_catch body (rethrow_as_SqsException message) w) = snd (body w)
  /\ is_Ok (fst (try_catch body (rethrow_as_SqsException message) w)) = is_Ok (fst (body w)).
Proof.
  unfold try_catch. destruct (body w) as [[[]|e] w']; simpl; [auto|].
  destruct (rethrow_world message e w') as (Hw & Hok & _). auto.
Qed.

(** X17. a message is acknowledged only by a run that returns; a run that
    returns without acknowledging sent nothing; at most one counter grows,
    by one; [processed] grows only with the acknowledgement and [failed]
    only with a throw. *)
Theorem consumer_outcome_is_coherent (message : Message) (w : World) :
  let run := processMessageWithRetry env manager message w in
  exists new,
    trace (snd run) = trace w ++ new
    /\ (acknowledged (ReceiptHandle message) new = true -> fst run = Ok tt)
    /\ (fst run = Ok tt -> acknowledged (ReceiptHandle message) new = true \/ new = [])
    /\ one_counter_moved (metrics w) (metrics (snd run))
    /\ (processed (metrics (snd run)) = processed (metrics w) + 1 ->
        acknowledged (ReceiptHandle message) new = true)
    /\ (failed (metrics (snd run)) = failed (metrics w) + 1 -> is_Ok (fst run) = false).
Proof.
  intros run.
  assert (Hgoal : exists new,
    trace (snd run) = trace w ++ new
    /\ (is_Ok (fst run) = acknowledged (ReceiptHandle message) new
        \/ (new = [] /\ metrics (snd run) = metrics w))
    /\ one_counter_moved (metrics w) (metrics (snd run))
    /\ (processed (metrics (snd run)) = processed (metrics w) + 1 ->
        acknowledged (ReceiptHandle message) new = true)
    /\ (failed (metrics (snd run)) = failed (metrics w) + 1 -> is_Ok (fst run) = false)).
  { unfold run, processMessageWithRetry.
    match goal with
    | |- context [try_catch ?b (rethrow_as_SqsException message) w] =>
        set (body := b);
        destruct (rethrow_keeps message body w) as [Hw Hok]
    end.
    rewrite Hw, Hok. clear Hw Hok. unfold body. clear body. run_M.
    assert (Hdel : forall w0, metrics w0 = metrics w \/ one_counter_moved (metrics w) (metrics w0) ->
      True) by trivial. clear Hdel.
    assert (Hsame : one_counter_moved (metrics w) (metrics w))
      by (unfold one_counter_moved; auto 10).
    assert (Hdelete : exists new,
      trace (snd (deleteMessage env (ReceiptHandle message) w)) = trace w ++ new
      /\ (is_Ok (fst (deleteMessage env (ReceiptHandle message) w))
          = acknowledged (ReceiptHandle message) new
          \/ (new = [] /\ metrics (snd (deleteMessage env (ReceiptHandle message) w))
                          = metrics w))
      /\ one_counter_moved (metrics w)
           (metrics (snd (deleteMessage env (ReceiptHandle message) w)))
      /\ (processed (metrics (snd (deleteMessage env (ReceiptHandle message) w)))
          = processed (metrics w) + 1 ->
          acknowledged (ReceiptHandle message) new = true)
      /\ (failed (metrics (snd (deleteMessage env (ReceiptHandle message) w)))
          = failed (metrics w) + 1 ->
          is_Ok (fst (deleteMessage env (ReceiptHandle message) w)) = false)).
    { destruct (deleteMessage_traffic env (ReceiptHandle message) w)
        as (accepted & rest & Htr & Hst & Hm & Hall & Hack).
      eexists. split; [exact Htr|]. rewrite Hm. split; [auto|].
      split; [exact Hsame|]. split; intros; lia. }
    destruct (Body message) as [text| |detail]; simpl;
      try (exists []; rewrite app_nil_r; split; [reflexivity|];
           split; [auto|]; split; [exact Hsame|]; split; intros; lia).
    destruct detail as [eventDetail|]; [|exact Hdelete].
    destruct (product eventDetail) as [p|]; [|exact Hdelete].
    clear Hdelete. unfold service_checkAndLock.
    destruct (checkAndLock_frame env ttl (generateKey (id p) (eventId eventDetail)) w)
      as (st & w1 & Hlock & Htr1 & Hm1 & _).
    rewrite Hlock. simpl.
    destruct st; simpl.
    - (* NOT_FOUND *)
      destruct (process_and_mark_summary message p eventDetail
                  (or_else (correlationId eventDetail) (eventId eventDetail)) w1)
        as (new & Htr & Hack & Htot & Hsk & Hcases).
      exists new. rewrite Htr1 in Htr. rewrite Hm1 in Htot, Hsk, Hcases.
      split; [exact Htr|]. split; [left; exact Hack|].
      split; [|split].
      + unfold one_counter_moved. split; [exact Htot|].
        destruct Hcases as [(H1 & H2 & H3) | (H1 & H2 & [H3|H3])]; auto 10.
      + intros Hp. destruct Hcases as [(H1 & _) | (_ & H2 & _)];
          [rewrite <- Hack; exact H1 | lia].
      + intros Hf. destruct Hcases as [(_ & _ & H3) | (H1 & _)]; [lia | exact H1].
    - (* PROCESSING *)
      exists []. rewrite app_nil_r, Htr1, Hm1. split; [reflexivity|].
      split; [auto|]. split; [exact Hsame|]. split; intros; lia.
    - (* COMPLETED *)
      unfold M_bind, bind. simpl.
      match goal with |- context [deleteMessage env ?h ?w0] =>
        destruct (deleteMessage_traffic env h w0)
          as (accepted & rest & Htr & Hst & Hm & Hall & Hack) end.
      simpl in Htr, Hm. eexists. split; [rewrite Htr, Htr1; reflexivity|].
      split; [left; exact Hack|]. rewrite Hm, Hm1. unfold one_counter_moved. simpl.
      split; [auto 10|]. split; intros; lia.
    - (* FAILED *)
      destruct (process_and_mark_summary message p eventDetail
                  (or_else (correlationId eventDetail) (eventId eventDetail)) w1)
        as (new & Htr & Hack & Htot & Hsk & Hcases).
      exists new. rewrite Htr1 in Htr. rewrite Hm1 in Htot, Hsk, Hcases.
      split; [exact Htr|]. split; [left; exact Hack|].
      split; [|split].
      + unfold one_counter_moved. split; [exact Htot|].
        destruct Hcases as [(H1 & H2 & H3) | (H1 & H2 & [H3|H3])]; auto 10.
      + intros Hp. destruct Hcases as [(H1 & _) | (_ & H2 & _)];
          [rewrite <- Hack; exact H1 | lia].
      + intros Hf. destruct Hcases as [(_ & _ & H3) | (H1 & _)]; [lia | exact H1]. }
  destruct Hgoal as (new & Htr & Hack & Hone & Hproc & Hfail).
  exists new. split; [exact Htr|].
  split.
  - intros Hyes. destruct Hack as [Hack | [-> _]]; [|discriminate].
    apply is_Ok_unit. congruence.
  - split; [|auto].
    intros Hret. destruct Hack as [Hack | [Hnil _]]; [|auto].
    left. rewrite <- Hack, Hret. reflexivity.
Qed.

(** X18. a message whose key is being processed is left alone: the call
    returns and the world is as it was. *)
Theorem in_flight_message_is_left_alone (message : Message)
    (ed : ProductIngestedEvent) (p : CanonicalProduct) (entry : StoreEntry) (w : World) :
  Body message = JsonObject (Some ed) -> product ed = Some p ->
  store w !! generateKey (id p) (eventId ed) = Some entry ->
  status (record entry) = PROCESSING ->
  env_now env (trace w) <= expiresAt entry ->
  processMessageWithRetry env manager message w = (Ok tt, w).
Proof.
  intros Hbody Hprod Hentry Hstatus Hlive.
  unfold processMessageWithRetry. run_M. rewrite Hbody. simpl. rewrite Hprod.
  unfold service_checkAndLock.
  rewrite (checkAndLock_existing env ttl _ _ _ Hentry Hlive), Hstatus. reflexivity.
Qed.

(** X19. a product without [name] is marked FAILED before anything is sent. *)
Theorem unnamed_product_is_marked_failed (message : Message)
    (ed : ProductIngestedEvent) (p : CanonicalProduct) (w : World) :
  Body message = JsonObject (Some ed) -> product ed = Some p -> name p = None ->
  let key := generateKey (id p) (eventId ed) in
  proceeds_to_processing (env_now env (trace w)) (store w !! key) ->
  let run := processMessageWithRetry env manager message w in
  exists msg,
    fst run = Throw (SqsException ("Message processing failed: " +:+ msg)%string
                                  "processMessage" (MessageId message) (TypeError msg))
    /\ trace (snd run) = trace w
    /\ store (snd run) !! key = Some (failed_entry ttl key (env_now env (trace w)) msg)
    /\ failed (metrics (snd run)) = failed (metrics w) + 1
    /\ processed (metrics (snd run)) = processed (metrics w)
    /\ skipped (metrics (snd run)) = skipped (metrics w).
Proof.
  intros Hbody Hprod Hname key Hproceeds run.
  destruct (checkAndLock_proceeds env ttl key w Hproceeds)
    as (st & w1 & Hlock & Hp1 & Hp2 & Htr1 & Hm1 & Hst1).
  unfold run.
  rewrite (processMessageWithRetry_processing env ttl _ _ _ _ _ _ Hbody Hprod Hlock Hp1 Hp2).
  unfold try_catch at 1, process_and_mark, processProduct, service_markFailed.
  run_M. rewrite Hname. simpl. rewrite Htr1, Hm1.
  eexists. split; [reflexivity|]. split; [reflexivity|].
  split; [apply lookup_insert_eq|]. auto.
Qed.

(** X20. an event without [metadata] has its product upserted, and is then
    marked FAILED: no emit, no delete. *)
Theorem missing_metadata_fails_after_upsert (message : Message)
    (ed : ProductIngestedEvent) (p : CanonicalProduct) (n : LocalizedString)
    (resp : PimcoreProductResponse) (w : World) :
  Body message = JsonObject (Some ed) -> product ed = Some p ->
  name p = Some n -> metadata ed = None ->
  let key := generateKey (id p) (eventId ed) in
  proceeds_to_processing (env_now env (trace w)) (store w !! key) ->
  env_pimcore_upsert env (trace w) p = Ok resp ->
  let run := processMessageWithRetry env manager message w in
  exists msg,
    fst run = Throw (SqsException ("Message processing failed: " +:+ msg)%string
                                  "processMessage" (MessageId message) (TypeError msg))
    /\ trace (snd run) = trace w ++ [EvPimcoreUpsert (id p) true]
    /\ store (snd run) !! key
       = Some (failed_entry ttl key (env_now env (trace (snd run))) msg)
    /\ failed (metrics (snd run)) = failed (metrics w) + 1
    /\ processed (metrics (snd run)) = processed (metrics w).
Proof.
  intros Hbody Hprod Hname Hmeta key Hproceeds Hup run.
  destruct (checkAndLock_proceeds env ttl key w Hproceeds)
    as (st & w1 & Hlock & Hp1 & Hp2 & Htr1 & Hm1 & Hst1).
  unfold run.
  rewrite (processMessageWithRetry_processing env ttl _ _ _ _ _ _ Hbody Hprod Hlock Hp1 Hp2).
  unfold try_catch at 1, process_and_mark, processProduct, service_markFailed.
  run_M. rewrite Hname. simpl. rewrite Htr1, Hup. simpl. rewrite Hmeta. simpl.
  rewrite ?Htr1, ?Hm1.
  eexists. split; [reflexivity|]. split; [reflexivity|].
  split; [apply lookup_insert_eq|]. auto.
Qed.

Lemma process_and_mark_returns (message : Message) (p : CanonicalProduct)
    (ed : ProductIngestedEvent) (cid : option string) (w : World) :
  fst (process_and_mark env manager message p ed cid w) = Ok tt ->
  exists entry,
    store (snd (process_and_mark env manager message p ed cid w))
      !! generateKey (id p) (eventId ed) = Some entry
    /\ status (record entry) = COMPLETED.
Proof.
  unfold process_and_mark, processProduct, service_markCompleted, service_markFailed.
  run_M.
  destruct (name p) as [n|]; simpl; [|discriminate].
  destruct (env_pimcore_upsert env (trace w) p) as [resp|e]; simpl.
  - destruct (metadata ed) as [md|]; simpl; [|discriminate].
    delete_step.
    + intros _. rewrite Hst. simpl. unfold InMemory_set. rewrite lookup_insert_eq. eauto.
    + destruct (message_of e); simpl; discriminate.
  - destruct (message_of e); simpl; discriminate.
Qed.

Lemma duplicate_run_facts (message : Message) (ed : ProductIngestedEvent)
    (p : CanonicalProduct) (entry : StoreEntry) (w : World) :
  Body message = JsonObject (Some ed) -> product ed = Some p ->
  store w !! generateKey (id p) (eventId ed) = Some entry ->
  status (record entry) = COMPLETED ->
  env_now env (trace w) <= expiresAt entry ->
  let run := processMessageWithRetry env manager message w in
  exists accepted rest,
    let sent := EvSqsDelete (ReceiptHandle message) accepted :: rest in
    trace (snd run) = trace w ++ sent
    /\ downstream_calls sent = []
    /\ skipped (metrics (snd run)) = skipped (metrics w) + 1
    /\ processed (metrics (snd run)) = processed (metrics w)
    /\ failed (metrics (snd run)) = failed (metrics w)
    /\ store (snd run) = store w.
Proof.
  intros Hbody Hprod Hentry Hstatus Hlive run. unfold run.
  destruct (rethrow_keeps message
              (incr_skipped;; deleteMessage env (ReceiptHandle message)) w) as [Hw _].
  assert (Heq : processMessageWithRetry env manager message w
                = try_catch (incr_skipped;; deleteMessage env (ReceiptHandle message))
                            (rethrow_as_SqsException message) w).
  { unfold processMessageWithRetry, try_catch. run_M. rewrite Hbody. simpl. rewrite Hprod.
    unfold service_checkAndLock.
    rewrite (checkAndLock_existing env ttl _ _ _ Hentry Hlive), Hstatus. reflexivity. }
  rewrite Heq, Hw. clear Heq Hw. run_M.
  match goal with |- context [deleteMessage env ?h ?w0] =>
    destruct (deleteMessage_traffic env h w0)
      as (accepted & rest & Htr & Hst & Hm & Hall & Hack) end.
  simpl in Htr, Hst, Hm. exists accepted, rest. cbv zeta.
  rewrite Htr, Hst, Hm. simpl.
  split; [reflexivity|].
  split; [exact (delete_traffic_not_downstream _ _ Hall)|]. auto.
Qed.

(** X21. once a run returned from processing a message, a redelivery of that
    message while the record lives goes nowhere downstream and is counted
    as skipped. *)
Theorem redelivery_after_success_is_skipped (message : Message)
    (ed : ProductIngestedEvent) (p : CanonicalProduct) (w later : World) :
  Body message = JsonObject (Some ed) -> product ed = Some p ->
  let key := generateKey (id p) (eventId ed) in
  proceeds_to_processing (env_now env (trace w)) (store w !! key) ->
  let first := processMessageWithRetry env manager message w in
  fst first = Ok tt ->
  store later !! key = store (snd first) !! key ->
  (forall entry, store (snd first) !! key = Some entry ->
                 env_now env (trace later) <= expiresAt entry) ->
  let second := processMessageWithRetry env manager message later in
  exists accepted rest,
    let sent := EvSqsDelete (ReceiptHandle message) accepted :: rest in
    trace (snd second) = trace later ++ sent
    /\ downstream_calls sent = []
    /\ skipped (metrics (snd second)) = skipped (metrics later) + 1
    /\ processed (metrics (snd second)) = processed (metrics later)
    /\ failed (metrics (snd second)) = failed (metrics later)
    /\ store (snd second) = store later.
Proof.
  intros Hbody Hprod key Hproceeds first Hret Hsame Hlive second.
  unfold key in *. clear key.
  destruct (checkAndLock_proceeds env ttl _ w Hproceeds)
    as (st & w1 & Hlock & Hp1 & Hp2 & _).
  assert (Hfirst : first = try_catch (process_and_mark env manager message p ed
                                        (or_else (correlationId ed) (eventId ed)))
                                     (rethrow_as_SqsException message) w1).
  { apply (processMessageWithRetry_processing env ttl _ _ _ _ _ _ Hbody Hprod Hlock Hp1 Hp2). }
  destruct (rethrow_keeps message
              (process_and_mark env manager message p ed
                 (or_else (correlationId ed) (eventId ed))) w1) as [Hw Hok].
  rewrite <- Hfirst in Hw, Hok. rewrite Hret in Hok. simpl in Hok.
  destruct (process_and_mark_returns message p ed _ w1 (is_Ok_unit _ (eq_sym Hok)))
    as (entry & Hentry & Hstatus).
  rewrite <- Hw in Hentry.
  apply (duplicate_run_facts message ed p entry later Hbody Hprod);
    [rewrite Hsame; exact Hentry | exact Hstatus | apply Hlive; exact Hentry].
Qed.
End ConsumerMore.


Section MoreScenarios.
Import Idempotency Consumer.

Lemma retryWithBackoff_no_attempt_witness :
  Retry.retryWithBackoff env_up (scripted fails_always) no_attempt_config
    (Some test_logger) w_empty
  = (Throw Undefined, w_empty).
Proof.
  apply (retryWithBackoff_no_attempt env_up (scripted fails_always) no_attempt_config
           (Some test_logger) w_empty).
  simpl. lia.
Defined.

Lemma deleteMessage_schedule_witness :
  trace (snd (deleteMessage env_queue_down "rh-1" w_empty))
  = [EvSqsDelete "rh-1" false; EvSleep 250%float; EvSqsDelete "rh-1" false;
     EvSleep 500%float; EvSqsDelete "rh-1" false]
  /\ fst (deleteMessage env_queue_down "rh-1" w_empty) = Throw (Error "queue down").
Proof.
  destruct (deleteMessage_schedule env_queue_down "rh-1" w_empty) as (_ & _ & Hrun).
  exact Hrun.
Defined.

Lemma breaker_invariant_kept_witness :
  breaker_invariant
    (snd (fst (Breaker.execute env_up
                 (Breaker.scripted_operation (T := unit) (Breaker.Rejected (Error "failure")))
                 test_breaker w_empty))).
Proof.
  apply (breaker_invariant_kept env_up
           (Breaker.scripted_operation (T := unit) (Breaker.Rejected (Error "failure")))
           test_breaker w_empty);
    [simpl; lia | simpl; lia | | reflexivity].
  apply new_CircuitBreaker_invariant. simpl. lia.
Defined.

Lemma exhausted_retries_count_once_witness :
  Breaker.failureCount
    (snd (fst (Pimcore.upsertProduct env_up (scripted fails_always) test_policy false
                 test_breaker w_empty))) = 1.
Proof.
  destruct (exhausted_retries_count_once env_up fails_always test_policy test_breaker
              w_empty (Error "permanent failure"))
    as (_ & _ & Hcount & _).
  - reflexivity.
  - simpl. lia.
  - intros i _. eexists. split; reflexivity.
  - reflexivity.
  - reflexivity.
  - exact Hcount.
Defined.

Lemma absorbed_failures_do_not_count_witness :
  fst (fst (Pimcore.upsertProduct env_up (scripted fails_twice) test_policy false
              test_breaker w_empty)) = Ok "success"%string
  /\ Breaker.state
       (snd (fst (Pimcore.upsertProduct env_up (scripted fails_twice) test_policy false
                    test_breaker w_empty))) = Breaker.CLOSED.
Proof.
  destruct (absorbed_failures_do_not_count env_up fails_twice test_policy test_breaker
              w_empty 2 "success"%string)
    as (Hret & _ & Hstate & _).
  - reflexivity.
  - simpl. lia.
  - intros [|[|i]] Hi; [eexists; split; reflexivity .. | lia].
  - reflexivity.
  - split; [exact Hret | exact Hstate].
Defined.

Lemma exhausted_operations_open_breaker_witness :
  Breaker.state
    (fst (Pimcore.upsert_each env_up 3 (scripted fails_always) test_policy
            (test_breaker, w_empty))) = Breaker.OPEN.
Proof.
  destruct (exhausted_operations_open_breaker env_up fails_always test_policy
              "test-service" test_breaker_config w_empty)
    as (_ & Hopen & _).
  - intros i. eexists. split; reflexivity.
  - simpl. lia.
  - simpl. lia.
  - exact Hopen.
Defined.

Lemma last_mark_wins_witness :
  fst (checkAndLock env_up (IdempotencyService env_up day) shirt_key
         (snd (markFailed env_up (IdempotencyService env_up day) shirt_key "boom"
                 w_completed))) = Ok FAILED.
Proof.
  destruct (last_mark_wins env_up day shirt_key w_completed
              (snd (markFailed env_up (IdempotencyService env_up day) shirt_key "boom"
                      w_completed))
              None "boom") as ((entry & Hentry & _ & _ & _ & Hcheck) & _).
  rewrite Hcheck; [reflexivity | exact Hentry |].
  revert Hentry. vm_compute. intros Hentry. injection Hentry as <-. discriminate.
Defined.

Lemma generateKey_injective_witness :
  interpolate (id shirt) = interpolate (Some "p1"%string)
  /\ interpolate (eventId shirt_event) = interpolate (Some "e1"%string).
Proof.
  apply (generateKey_injective (id shirt) (eventId shirt_event)
           (Some "p1"%string) (Some "e1"%string)); reflexivity.
Defined.

Lemma checkAndLock_on_failed_read_witness :
  checkAndLock env_up
    {| mgr_store := Redis.RedisIdempotencyStore redis_read_down key (fun _ => Ok None);
       ttlMs := day |} shirt_key w_empty
  = (Ok NOT_FOUND, w_empty).
Proof.
  apply (checkAndLock_on_failed_read env_up redis_read_down key (fun _ => Ok None) day
           shirt_key w_empty (Error "ECONNREFUSED")).
  reflexivity.
Defined.

Lemma in_flight_message_is_left_alone_witness :
  processMessageWithRetry env_up (IdempotencyService env_up day) msg_shirt w_processing
  = (Ok tt, w_processing).
Proof.
  apply (in_flight_message_is_left_alone env_up day msg_shirt shirt_event shirt
           (lock_entry day shirt_key 500) w_processing).
  - reflexivity.
  - reflexivity.
  - vm_compute. reflexivity.
  - reflexivity.
  - vm_compute. discriminate.
Defined.

Lemma unnamed_product_is_marked_failed_witness :
  trace (snd (processMessageWithRetry env_up (IdempotencyService env_up day)
                msg_unnamed w_empty)) = []
  /\ failed (metrics (snd (processMessageWithRetry env_up (IdempotencyService env_up day)
                             msg_unnamed w_empty))) = 1.
Proof.
  destruct (unnamed_product_is_marked_failed env_up day msg_unnamed _ unnamed_shirt
              w_empty eq_refl eq_refl eq_refl I)
    as (msg & _ & Htr & _ & Hfailed & _).
  split; [exact Htr | exact Hfailed].
Defined.

Lemma missing_metadata_fails_after_upsert_witness :
  trace (snd (processMessageWithRetry env_up (IdempotencyService env_up day)
                msg_without_metadata w_empty))
  = [EvPimcoreUpsert (Some "p1"%string) true].
Proof.
  destruct (missing_metadata_fails_after_upsert env_up day msg_without_metadata
              event_without_metadata shirt {| ar := None; en := Some "Shirt"%string |}
              pim_1 w_empty eq_refl eq_refl eq_refl eq_refl I eq_refl)
    as (msg & _ & Htr & _).
  exact Htr.
Defined.

Lemma redelivery_after_success_is_skipped_witness :
  let first := processMessageWithRetry env_up (IdempotencyService env_up day)
                 msg_shirt w_empty in
  let second := processMessageWithRetry env_up (IdempotencyService env_up day)
                  msg_shirt (snd first) in
  fst first = Ok tt
  /\ skipped (metrics (snd second)) = skipped (metrics (snd first)) + 1
  /\ store (snd second) = store (snd first).
Proof.
  intros first second.
  assert (Hret : fst first = Ok tt) by (vm_compute; reflexivity).
  split; [exact Hret|].
  destruct (redelivery_after_success_is_skipped env_up day msg_shirt shirt_event shirt
              w_empty (snd first) eq_refl eq_refl I Hret eq_refl)
    as (accepted & rest & _ & _ & Hskipped & _ & _ & Hstore).
  - intros entry Hentry. vm_compute in Hentry. injection Hentry as <-.
    vm_compute. discriminate.
  - split; [exact Hskipped | exact Hstore].
Defined.
Lemma getCircuitBreaker_shared_witness :
  fst (getCircuitBreaker "test-service"
         {| Breaker.p_failureThreshold := Some 1; Breaker.p_successThreshold := None;
            Breaker.p_timeout := None; Breaker.p_resetTimeout := None |}
         (snd (getCircuitBreaker "test-service" test_breaker_config ∅)))
  = test_breaker.
Proof.
  destruct (getCircuitBreaker_shared "test-service" test_breaker_config
              {| Breaker.p_failureThreshold := Some 1; Breaker.p_successThreshold := None;
                 Breaker.p_timeout := None; Breaker.p_resetTimeout := None |} ∅)
    as (Hsame & _ & _ & Hnew & _).
  rewrite Hsame. apply Hnew. reflexivity.
Defined.

Lemma Redis_store_error_handling_witness :
  fst (store_get (Redis.RedisIdempotencyStore redis_read_down key (fun _ => Ok None))
         shirt_key w_empty) = Ok None.
Proof.
  rewrite (proj1 (Redis_store_error_handling redis_read_down key (fun _ => Ok None)
                    shirt_key w_empty)).
  reflexivity.
Defined.

Lemma manager_touches_one_key_witness :
  fst (release (IdempotencyService env_up day) shirt_key w_completed) = Ok tt.
Proof.
  apply (proj2 (manager_touches_one_key env_up day shirt_key w_completed)
           (release (IdempotencyService env_up day) shirt_key)).
  right; right; reflexivity.
Defined.

Lemma key_is_eligible_again_witness :
  fst (checkAndLock env_up (IdempotencyService env_up day) shirt_key
         (snd (release (IdempotencyService env_up day) shirt_key w_completed)))
  = Ok NOT_FOUND.
Proof.
  apply (proj1 (key_is_eligible_again env_up day shirt_key) w_completed
           (snd (release (IdempotencyService env_up day) shirt_key w_completed))).
  reflexivity.
Defined.

Lemma InMemory_get_reclaims_witness :
  fst (InMemory_get (day + 501) shirt_key (store w_processing)) = None.
Proof.
  apply (proj1 (InMemory_get_reclaims (day + 501) shirt_key (store w_processing))
           (lock_entry day shirt_key 500)).
  - reflexivity.
  - vm_compute. reflexivity.
Defined.

Lemma consumer_outcome_is_coherent_witness :
  one_counter_moved (metrics w_empty)
    (metrics (snd (processMessageWithRetry env_up (IdempotencyService env_up day)
                     msg_shirt w_empty))).
Proof.
  destruct (consumer_outcome_is_coherent env_up day msg_shirt w_empty)
    as (new & _ & _ & _ & Hm & _).
  exact Hm.
Defined.

End MoreScenarios.
